(** * customerimporter: counting customer e-mails per domain

    A shallow embedding of [customer_importer.go] and the properties of its
    specification.  Go strings are byte strings ([string]), Go maps are
    [gmap]s, Go's [int] is a 64-bit two's-complement integer carried in [Z]
    with its wrap-around written out, and a method with a pointer receiver
    returns the receiver it leaves behind next to the value it returns. *)

From Stdlib Require Import ZArith Lia String Ascii List.
From stdpp Require Import base gmap strings list sorting.

Local Open Scope Z_scope.

(** ** Go's [int] *)

Module GoInt.

Definition min_int : Z := - 2 ^ 63.
Definition max_int : Z := 2 ^ 63 - 1.

(** Two's-complement reduction of a mathematical integer to an [int]. *)
Definition wrap (z : Z) : Z := (z + 2 ^ 63) `mod` 2 ^ 64 - 2 ^ 63.

(** [x++] *)
Definition incr (x : Z) : Z := wrap (x + 1).

(** [len(l)] *)
Definition len {A} (l : list A) : Z := Z.of_nat (length l).

(** [l[i]]: [None] stands for the run-time panic "index out of range". *)
Definition index {A} (l : list A) (i : Z) : option A :=
  if i <? 0 then None else l !! Z.to_nat i.

End GoInt.

(** ** Errors *)

(** The error values of the package, [csv.ErrFieldCount], and
    [*csv.ParseError] (its [Line], [Column] and [Err] fields, the ones the
    package sets and its tests read).  [ErrFieldNotExists name] is the error
    [determineEmailColumnIndex] builds from [ErrFieldNotExists]'s text and
    the field name.  [errorString text] is any other error value, known by
    its text: the syntax errors of [encoding/csv] ([csv.ErrQuote],
    [csv.ErrBareQuote]) and the errors of the [io.Reader] under the csv
    reader, which reach [parse] through [Read]. *)
Inductive Error : Type :=
| ErrFieldNotExists (fieldName : string)
| ErrEmailIsNotValid
| ErrEmailDuplicate
| ErrEmptyFile
| ErrNoValidEmailsFound
| ErrFieldCount
| ParseError (Line Column : Z) (Err : Error)
| errorString (text : string).

Definition Line (e : Error) : option Z :=
  match e with ParseError l _ _ => Some l | _ => None end.
Definition Column (e : Error) : option Z :=
  match e with ParseError _ c _ => Some c | _ => None end.
Definition Err (e : Error) : Error :=
  match e with ParseError _ _ e' => e' | _ => e end.

(** What a Go call yields: the returned value with the returned [error]
    ([None] is [nil]), or a run-time panic. *)
Inductive outcome (A : Type) : Type :=
| Return (a : A) (err : option Error)
| Panic.
Arguments Return {A} a err.
Arguments Panic {A}.

(** ** [strings.Split] with a one-byte separator *)

Fixpoint Split (s : string) (sep : ascii) : list string :=
  match s with
  | EmptyString => [EmptyString]
  | String b s' =>
      if Ascii.eqb b sep then EmptyString :: Split s' sep
      else match Split s' sep with
           | [] => [String b EmptyString]
           | part :: parts => String b part :: parts
           end
  end.

(** ** [IsValidEmail] *)

Fixpoint countByte (b : ascii) (s : string) : nat :=
  match s with
  | EmptyString => 0%nat
  | String b' s' => ((if Ascii.eqb b' b then 1 else 0) + countByte b s')%nat
  end.

(** The part of [s] before the first [b] (all of [s] when there is none). *)
Fixpoint partBefore (b : ascii) (s : string) : string :=
  match s with
  | EmptyString => EmptyString
  | String b' s' => if Ascii.eqb b' b then EmptyString else String b' (partBefore b s')
  end.

(** The part of [s] after the first [b] (empty when there is none). *)
Fixpoint partAfter (b : ascii) (s : string) : string :=
  match s with
  | EmptyString => EmptyString
  | String b' s' => if Ascii.eqb b' b then s' else partAfter b s'
  end.

(** Modelled from the spec: [IsValidEmail] is called by
    [getDomainNameFromEmail] and exercised by the package's tests, but its
    definition is not among the sources.  The specification's validation
    rule: exactly one [@] character, a non-empty local part before it and a
    non-empty domain part after it. *)
Definition IsValidEmail (email : string) : bool :=
  (countByte "@" email =? 1)%nat
  && negb (String.eqb (partBefore "@" email) "")
  && negb (String.eqb (partAfter "@" email) "").

(** ** The result list and its [sort.Interface] *)

Record EmailsByDomainQty : Type := mkEmailsByDomainQty {
  Domain : string;
  EmailsCount : Z
}.

Definition EmailsByDomainQtyList : Type := list EmailsByDomainQty.

(** [Less(i, j)] on the elements at [i] and [j]: Go's [<] on strings is the
    lexicographic order on bytes. *)
Definition Less (pi pj : EmailsByDomainQty) : bool :=
  String.ltb (Domain pi) (Domain pj).

(** [sort.Sort], which only consults [Less] (and [Len], [Swap]); here by
    insertion. *)
Module sort.

Fixpoint insert (x : EmailsByDomainQty) (p : EmailsByDomainQtyList)
  : EmailsByDomainQtyList :=
  match p with
  | [] => [x]
  | y :: p' => if Less x y then x :: y :: p' else y :: insert x p'
  end.

Fixpoint Sort (p : EmailsByDomainQtyList) : EmailsByDomainQtyList :=
  match p with
  | [] => []
  | x :: p' => insert x (Sort p')
  end.

End sort.

(** ** [encoding/csv]'s reader

    [Reader] and [Read] are the reader on a stream that is the list of the
    records it holds, one per line and none of them broken: no blank line,
    no record over several lines, no quoting error, no failure of the
    [io.Reader] underneath.  The reader keeps [FieldsPerRecord] (0 at
    first: the first record fixes the count every later record must have)
    and the number of the record it is at, which on these streams is the
    line.  The reader of any stream is below ([parseReads]): there [Read]
    returns what the library returns, whatever its line and column. *)
Module csv.

Record Reader : Type := mkReader {
  FieldsPerRecord : Z;
  numLine : Z
}.

Definition NewReader : Reader := mkReader 0 0.

(** The column at which the reader reports a record of the wrong width:
    the start of the record.  (Releases of the library whose [ParseError]
    has the three fields the package's tests write report 0 here; later
    ones report 1.) *)
Definition fieldCountColumn : Z := 0.

(** [Read] when the stream yields [record] next; the end of the stream
    ([io.EOF]) is the empty list in [parse]. *)
Definition Read (r : Reader) (record : list string) : Reader * option Error :=
  let r := mkReader (FieldsPerRecord r) (GoInt.incr (numLine r)) in
  if 0 <? FieldsPerRecord r then
    if negb (GoInt.len record =? FieldsPerRecord r)
    then (r, Some (ParseError (numLine r) fieldCountColumn ErrFieldCount))
    else (r, None)
  else if FieldsPerRecord r =? 0 then
    (mkReader (GoInt.len record) (numLine r), None)
  else (r, None).

(** What a call of [Read] returns: the record and the error ([None] is
    [nil]). *)
Definition Returned : Type := list string * option Error.

(** The check of [FieldsPerRecord] alone, on a reader that expects
    [fieldsPerRecord] > 0 fields: what [Read] returns for a record the
    stream holds whole.  [position] is the line and the column the reader
    puts in its [*ParseError]; they are the library's to choose (the line
    counts the blank lines the reader skips, and the column of
    [ErrFieldCount] is 0 or 1 with the release). *)
Definition checked (fieldsPerRecord : Z) (record : list string) (position : Z * Z)
  : Returned :=
  if negb (GoInt.len record =? fieldsPerRecord)
  then (record, Some (ParseError (fst position) (snd position) ErrFieldCount))
  else (record, None).

(** What the successive calls of [Read] return on a stream of one record
    per line. *)
Fixpoint reads (r : Reader) (records : list (list string)) : list Returned :=
  match records with
  | [] => []
  | record :: records' =>
      let '(r', err) := Read r record in (record, err) :: reads r' records'
  end.

End csv.

(** ** [CustomerImporter] *)

Record CustomerImporter : Type := mkCustomerImporter {
  emailFieldName : string;
  emailColumnIndex : Z;
  domainCounter : gmap string Z;
  countedEmails : gmap string bool;
  line : Z;
  reader : csv.Reader;
  skipErrDupEmails : bool;
  skipErrInvalidEmails : bool
}.

Definition set_emailColumnIndex (v : Z) (c : CustomerImporter) :=
  mkCustomerImporter (emailFieldName c) v (domainCounter c) (countedEmails c)
    (line c) (reader c) (skipErrDupEmails c) (skipErrInvalidEmails c).
Definition set_domainCounter (v : gmap string Z) (c : CustomerImporter) :=
  mkCustomerImporter (emailFieldName c) (emailColumnIndex c) v (countedEmails c)
    (line c) (reader c) (skipErrDupEmails c) (skipErrInvalidEmails c).
Definition set_countedEmails (v : gmap string bool) (c : CustomerImporter) :=
  mkCustomerImporter (emailFieldName c) (emailColumnIndex c) (domainCounter c) v
    (line c) (reader c) (skipErrDupEmails c) (skipErrInvalidEmails c).
Definition set_line (v : Z) (c : CustomerImporter) :=
  mkCustomerImporter (emailFieldName c) (emailColumnIndex c) (domainCounter c)
    (countedEmails c) v (reader c) (skipErrDupEmails c) (skipErrInvalidEmails c).
Definition set_reader (v : csv.Reader) (c : CustomerImporter) :=
  mkCustomerImporter (emailFieldName c) (emailColumnIndex c) (domainCounter c)
    (countedEmails c) (line c) v (skipErrDupEmails c) (skipErrInvalidEmails c).
Definition set_skipErrDupEmails (v : bool) (c : CustomerImporter) :=
  mkCustomerImporter (emailFieldName c) (emailColumnIndex c) (domainCounter c)
    (countedEmails c) (line c) (reader c) v (skipErrInvalidEmails c).
Definition set_skipErrInvalidEmails (v : bool) (c : CustomerImporter) :=
  mkCustomerImporter (emailFieldName c) (emailColumnIndex c) (domainCounter c)
    (countedEmails c) (line c) (reader c) (skipErrDupEmails c) v.

(** ** Options *)

Definition Option : Type := CustomerImporter -> CustomerImporter.

Definition SkipErrDuplicateEmails : Option := set_skipErrDupEmails true.
Definition SkipErrInvalidEmails : Option := set_skipErrInvalidEmails true.
Definition emptyOption : Option := fun f => f.

(** ** The methods *)

(** [c.error(err)] *)
Definition error (c : CustomerImporter) (err : Error) : Error :=
  ParseError (line c) (emailColumnIndex c) err.

(** [getDomainNameFromEmail] *)
Definition getDomainNameFromEmail (email : string) : outcome string :=
  if negb (IsValidEmail email) then Return EmptyString (Some ErrEmailIsNotValid)
  else match GoInt.index (Split email "@") 1 with
       | Some domainName => Return domainName None
       | None => Panic
       end.

(** [handleDuplicates] *)
Definition handleDuplicates (c : CustomerImporter) (email : string)
  : outcome CustomerImporter :=
  match countedEmails c !! email with
  | Some _ => Return c (Some ErrEmailDuplicate)
  | None => Return (set_countedEmails (<[email := true]> (countedEmails c)) c) None
  end.

(** [c.domainCounter[domainName]++]: a missing key reads as 0. *)
Definition incrementDomain (domainName : string) (m : gmap string Z) : gmap string Z :=
  <[domainName := GoInt.incr (default 0 (m !! domainName))]> m.

(** [updateDomainCounter] *)
Definition updateDomainCounter (c : CustomerImporter) (record : list string)
  : outcome CustomerImporter :=
  match GoInt.index record (emailColumnIndex c) with
  | None => Panic
  | Some email =>
      match handleDuplicates c email with
      | Panic => Panic
      | Return c (Some err) =>
          if skipErrDupEmails c then Return c None else Return c (Some err)
      | Return c None =>
          match getDomainNameFromEmail email with
          | Panic => Panic
          | Return _ (Some err) =>
              if skipErrInvalidEmails c then Return c None else Return c (Some err)
          | Return domainName None =>
              Return (set_domainCounter
                        (incrementDomain domainName (domainCounter c)) c) None
          end
      end
  end.

(** The [range] loop of [determineEmailColumnIndex], at position [index]
    (a position in a slice, which [index + 1] cannot take out of [int]). *)
Fixpoint rangeHeader (name : string) (headerRecord : list string) (index : Z)
  : option Z :=
  match headerRecord with
  | [] => None
  | r :: rest =>
      if String.eqb r name then Some index else rangeHeader name rest (index + 1)
  end.

(** [determineEmailColumnIndex] *)
Definition determineEmailColumnIndex (c : CustomerImporter)
  (headerRecord : list string) : outcome CustomerImporter :=
  match rangeHeader (emailFieldName c) headerRecord 0 with
  | Some index => Return (set_emailColumnIndex index c) None
  | None => Return c (Some (ErrFieldNotExists (emailFieldName c)))
  end.

(** [parse]: one iteration of the [for] loop per record of the stream [r],
    and a last one that meets [io.EOF]. *)
Fixpoint parse (c : CustomerImporter) (r : list (list string))
  : outcome CustomerImporter :=
  let c := set_line (GoInt.incr (line c)) c in
  match r with
  | [] =>
      if line c =? 1 then Return c (Some (error c ErrEmptyFile))
      else Return c None
  | record :: r' =>
      let '(rd, err) := csv.Read (reader c) record in
      let c := set_reader rd c in
      match err with
      | Some err => Return c (Some err)
      | None =>
          if line c =? 1 then
            match determineEmailColumnIndex c record with
            | Panic => Panic
            | Return c (Some err) => Return c (Some (error c err))
            | Return c None => parse c r'
            end
          else
            match updateDomainCounter c record with
            | Panic => Panic
            | Return c (Some err) => Return c (Some (error c err))
            | Return c None => parse c r'
            end
      end
  end.

(** [getResult]: the map is ranged over in the order of [map_to_list]
    ([getResult_any_order] below: the order does not matter). *)
Definition toList (m : gmap string Z) : EmailsByDomainQtyList :=
  (fun '(domain, emailsQuantity) => mkEmailsByDomainQty domain emailsQuantity)
    <$> map_to_list m.

Definition getResult (c : CustomerImporter)
  : outcome (option EmailsByDomainQtyList) :=
  let result := toList (domainCounter c) in
  let result := sort.Sort result in
  if GoInt.len result <? 1 then Return None (Some (error c ErrNoValidEmailsFound))
  else Return (Some result) None.

(** [Import] *)
Definition newImporter (emailFieldName : string) (options : list Option)
  : CustomerImporter :=
  let c := mkCustomerImporter emailFieldName 0 ∅ ∅ 0 csv.NewReader false false in
  fold_left (fun c option => option c) options c.

Definition Import (r : list (list string)) (emailFieldName : string)
  (options : list Option) : outcome (option EmailsByDomainQtyList) :=
  let c := newImporter emailFieldName options in
  match parse c r with
  | Panic => Panic
  | Return c (Some err) => Return None (Some err)
  | Return c None =>
      match getResult c with
      | Panic => Panic
      | Return _ (Some err) => Return None (Some err)
      | Return result None => Return result None
      end
  end.

(** ** [parse] and [Import] on any reader

    [parse] knows of its reader what the calls of [c.reader.Read()] return
    and nothing else.  Here the reader is the list of these returns, up to
    the [io.EOF] that ends it: a record with [nil], or an error of the
    reader, of any kind and with the position the reader gives it.
    [parse] and [Import] above are these on the reader of a stream of one
    record per line ([Import_reads] below). *)
Fixpoint parseReads (c : CustomerImporter) (reads : list csv.Returned)
  : outcome CustomerImporter :=
  let c := set_line (GoInt.incr (line c)) c in
  match reads with
  | [] =>
      if line c =? 1 then Return c (Some (error c ErrEmptyFile))
      else Return c None
  | (record, err) :: reads' =>
      match err with
      | Some err => Return c (Some err)
      | None =>
          if line c =? 1 then
            match determineEmailColumnIndex c record with
            | Panic => Panic
            | Return c (Some err) => Return c (Some (error c err))
            | Return c None => parseReads c reads'
            end
          else
            match updateDomainCounter c record with
            | Panic => Panic
            | Return c (Some err) => Return c (Some (error c err))
            | Return c None => parseReads c reads'
            end
      end
  end.

Definition ImportReads (reads : list csv.Returned) (emailFieldName : string)
  (options : list Option) : outcome (option EmailsByDomainQtyList) :=
  let c := newImporter emailFieldName options in
  match parseReads c reads with
  | Panic => Panic
  | Return c (Some err) => Return None (Some err)
  | Return c None =>
      match getResult c with
      | Panic => Panic
      | Return _ (Some err) => Return None (Some err)
      | Return result None => Return result None
      end
  end.

(** ** The [sort.Interface] methods, on indices

    [Len], [Swap] and [Less] as [sort.Sort] calls them; an index outside the
    slice panics ([None]). *)

Definition Len (p : EmailsByDomainQtyList) : Z := GoInt.len p.

(** [p[i], p[j] = p[j], p[i]]: both elements are read, then [p[i]] and
    [p[j]] are written, in that order. *)
Definition Swap (p : EmailsByDomainQtyList) (i j : Z)
  : option EmailsByDomainQtyList :=
  match GoInt.index p i, GoInt.index p j with
  | Some pi, Some pj => Some (<[Z.to_nat j := pi]> (<[Z.to_nat i := pj]> p))
  | _, _ => None
  end.

(** [Less(i, j)]: [p[i].Domain < p[j].Domain]. *)
Definition LessAt (p : EmailsByDomainQtyList) (i j : Z) : option bool :=
  match GoInt.index p i, GoInt.index p j with
  | Some pi, Some pj => Some (Less pi pj)
  | _, _ => None
  end.

(** ** [ImportFromFile]

    The files [os.Open] can see: a name has no file, a file that may not be
    read, or a file with its records; and the names of the files held
    open. *)
Module os.

Inductive PathError : Type := ErrNotExist | ErrPermission.

Inductive Entry : Type :=
| Denied
| Readable (records : list (list string)).

Record FileSystem : Type := mkFileSystem {
  files : gmap string Entry;
  held : list string
}.

(** [os.Open] *)
Definition Open (fs : FileSystem) (fileName : string)
  : FileSystem * (PathError + list (list string)) :=
  match files fs !! fileName with
  | None => (fs, inl ErrNotExist)
  | Some Denied => (fs, inl ErrPermission)
  | Some (Readable records) =>
      (mkFileSystem (files fs) (fileName :: held fs), inr records)
  end.

(** [file.Close] *)
Fixpoint release (fileName : string) (names : list string) : list string :=
  match names with
  | [] => []
  | name :: names' =>
      if String.eqb name fileName then names' else name :: release fileName names'
  end.

Definition Close (fs : FileSystem) (fileName : string) : FileSystem :=
  mkFileSystem (files fs) (release fileName (held fs)).

End os.

(** What [ImportFromFile] returns: the error of [os.Open], or what [Import]
    returns. *)
Inductive fileOutcome : Type :=
| OpenFailed (err : os.PathError)
| Imported (o : outcome (option EmailsByDomainQtyList)).

(** [ImportFromFile]: the deferred [file.Close] runs however [Import]
    returns. *)
Definition ImportFromFile (fs : os.FileSystem) (fileName : string)
  (emailFieldName : string) (options : list Option)
  : os.FileSystem * fileOutcome :=
  match os.Open fs fileName with
  | (fs, inl err) => (fs, OpenFailed err)
  | (fs, inr file) =>
      let o := Import file emailFieldName options in
      let fs := os.Close fs fileName in
      match o with
      | Panic => (fs, Imported Panic)
      | Return _ (Some err) => (fs, Imported (Return None (Some err)))
      | Return result None => (fs, Imported (Return result None))
      end
  end.

(** * The vocabulary of the properties

    Test data, the flags of a run, the loop of [parse] taken one iteration at
    a time, the shape of the receiver past the header, and the ways a run
    ends. *)

(** ** The data of the package's tests *)

Definition header : list string :=
  ["first_name"; "last_name"; "email"; "gender"; "ip_address"]%string.

Definition rowOf (email : string) : list string :=
  ["Mildred"; "Hernandez"; email; "Female"; "38.194.51.128"]%string.

(** ** Emails *)

(** An address [localPart@domainPart]. *)
Definition address (localPart domainPart : string) : string :=
  localPart +:+ String "@" domainPart.

(** The domain of an address: what follows the [@]. *)
Definition domainOf (email : string) : string := partAfter "@" email.

(** ** The options of a run *)

(** The option list that sets exactly the given flags. *)
Definition options (skipDup skipInvalid : bool) : list Option :=
  (if skipDup then [SkipErrDuplicateEmails] else [])
  ++ (if skipInvalid then [SkipErrInvalidEmails] else []).

(** The importer [Import] starts [parse] with. *)
Definition initial (name : string) (skipDup skipInvalid : bool) : CustomerImporter :=
  mkCustomerImporter name 0 ∅ ∅ 0 csv.NewReader skipDup skipInvalid.

(** The options the package exports (and the tests' empty one). *)
Definition packageOption (o : Option) : Prop :=
  o = SkipErrDuplicateEmails \/ o = SkipErrInvalidEmails \/ o = emptyOption.

(** ** The loop of [parse], one iteration at a time *)

(** One iteration of the loop on a record the stream yields. *)
Definition iteration (c : CustomerImporter) (record : list string)
  : outcome CustomerImporter :=
  let c := set_line (GoInt.incr (line c)) c in
  let '(rd, err) := csv.Read (reader c) record in
  let c := set_reader rd c in
  match err with
  | Some err => Return c (Some err)
  | None =>
      match (if line c =? 1 then determineEmailColumnIndex c record
             else updateDomainCounter c record) with
      | Panic => Panic
      | Return c (Some err) => Return c (Some (error c err))
      | Return c None => Return c None
      end
  end.

(** The iterations on the records [rows], up to the first that returns. *)
Fixpoint process (c : CustomerImporter) (rows : list (list string))
  : outcome CustomerImporter :=
  match rows with
  | [] => Return c None
  | record :: rows' =>
      match iteration c record with
      | Return c' None => process c' rows'
      | stop => stop
      end
  end.

(** What [Import] does with what [parse] returns. *)
Definition finish (parsed : outcome CustomerImporter)
  : outcome (option EmailsByDomainQtyList) :=
  match parsed with
  | Panic => Panic
  | Return c (Some err) => Return None (Some err)
  | Return c None =>
      match getResult c with
      | Panic => Panic
      | Return _ (Some err) => Return None (Some err)
      | Return result None => Return result None
      end
  end.

(** ** One record *)

(** The receiver after [countedEmails[email] = true]. *)
Definition marked (email : string) (c : CustomerImporter) : CustomerImporter :=
  set_countedEmails (<[email := true]> (countedEmails c)) c.

(** The receiver after [domainCounter[domainName]++]. *)
Definition counted (domainName : string) (c : CustomerImporter) : CustomerImporter :=
  set_domainCounter (incrementDomain domainName (domainCounter c)) c.

(** The receiver once the iteration has counted its line and read its
    record. *)
Definition advanced (c : CustomerImporter) : CustomerImporter :=
  set_reader (csv.mkReader (csv.FieldsPerRecord (reader c))
                           (GoInt.incr (csv.numLine (reader c))))
    (set_line (GoInt.incr (line c)) c).

(** What an iteration past the header does, case by case. *)
Definition rowStep (c : CustomerImporter) (record : list string)
  : outcome CustomerImporter :=
  let c := advanced c in
  if negb (GoInt.len record =? csv.FieldsPerRecord (reader c)) then
    Return c (Some (ParseError (csv.numLine (reader c)) csv.fieldCountColumn
                               ErrFieldCount))
  else
    match GoInt.index record (emailColumnIndex c) with
    | None => Panic
    | Some email =>
        if decide (is_Some (countedEmails c !! email)) then
          Return c (if skipErrDupEmails c then None
                    else Some (error c ErrEmailDuplicate))
        else if IsValidEmail email then
          Return (counted (domainOf email) (marked email c)) None
        else
          Return (marked email c)
                 (if skipErrInvalidEmails c then None
                  else Some (error c ErrEmailIsNotValid))
    end.

(** ** The receiver past the header

    Past the header the receiver has a fixed shape: the configuration and the
    resolved column stay, the two line counters move together, and the two
    maps grow. *)

(** The receiver after a header of [n] fields that has the field at [idx]. *)
Definition resolved (name : string) (skipDup skipInvalid : bool) (n idx : Z)
  : CustomerImporter :=
  mkCustomerImporter name idx ∅ ∅ 1 (csv.mkReader n 1) skipDup skipInvalid.

(** The receiver at the end of the iteration of line [k], with the emails
    marked so far and the counts so far. *)
Definition running (name : string) (skipDup skipInvalid : bool) (n idx : Z)
  (k : Z) (seen : gmap string bool) (counter : gmap string Z)
  : CustomerImporter :=
  mkCustomerImporter name idx counter seen k (csv.mkReader n k) skipDup skipInvalid.

(** The rows a run goes through without stopping, with what they do to the
    marked emails and to the counts: a row is a duplicate that is skipped,
    an invalid address that is skipped (and marked), or an address that is
    counted (and marked). *)
Inductive accepted (skipDup skipInvalid : bool) (n idx : Z) :
  gmap string bool -> gmap string Z -> list (list string) ->
  gmap string bool -> gmap string Z -> Prop :=
| accepted_nil seen counter : accepted skipDup skipInvalid n idx seen counter [] seen counter
| accepted_duplicate seen counter record email rows seen' counter' :
    GoInt.len record = n ->
    GoInt.index record idx = Some email ->
    is_Some (seen !! email) ->
    skipDup = true ->
    accepted skipDup skipInvalid n idx seen counter rows seen' counter' ->
    accepted skipDup skipInvalid n idx seen counter (record :: rows) seen' counter'
| accepted_invalid seen counter record email rows seen' counter' :
    GoInt.len record = n ->
    GoInt.index record idx = Some email ->
    seen !! email = None ->
    IsValidEmail email = false ->
    skipInvalid = true ->
    accepted skipDup skipInvalid n idx (<[email := true]> seen) counter rows
             seen' counter' ->
    accepted skipDup skipInvalid n idx seen counter (record :: rows) seen' counter'
| accepted_counted seen counter record email rows seen' counter' :
    GoInt.len record = n ->
    GoInt.index record idx = Some email ->
    seen !! email = None ->
    IsValidEmail email = true ->
    accepted skipDup skipInvalid n idx (<[email := true]> seen)
             (incrementDomain (domainOf email) counter) rows seen' counter' ->
    accepted skipDup skipInvalid n idx seen counter (record :: rows) seen' counter'.

(** How one iteration stops a run. *)
Inductive rejected (skipDup skipInvalid : bool) (n idx : Z)
  (k : Z) (seen : gmap string bool) (record : list string) : Error -> Prop :=
| rejected_fieldCount :
    GoInt.len record ≠ n ->
    rejected skipDup skipInvalid n idx k seen record
             (ParseError k csv.fieldCountColumn ErrFieldCount)
| rejected_duplicate email :
    GoInt.len record = n ->
    GoInt.index record idx = Some email ->
    is_Some (seen !! email) ->
    skipDup = false ->
    rejected skipDup skipInvalid n idx k seen record
             (ParseError k idx ErrEmailDuplicate)
| rejected_invalid email :
    GoInt.len record = n ->
    GoInt.index record idx = Some email ->
    seen !! email = None ->
    IsValidEmail email = false ->
    skipInvalid = false ->
    rejected skipDup skipInvalid n idx k seen record
             (ParseError k idx ErrEmailIsNotValid).

(** The two ways a run past the header ends: every row is accepted, or
    some row is the first to be rejected. *)
Inductive ending (skipDup skipInvalid : bool) (n idx : Z)
  (k : Z) (seen : gmap string bool) (counter : gmap string Z)
  (rows : list (list string)) : Prop :=
| ending_accepted seen' counter' :
    accepted skipDup skipInvalid n idx seen counter rows seen' counter' ->
    ending skipDup skipInvalid n idx k seen counter rows
| ending_rejected pre row post seen1 counter1 e :
    rows = pre ++ row :: post ->
    accepted skipDup skipInvalid n idx seen counter pre seen1 counter1 ->
    rejected skipDup skipInvalid n idx (k + GoInt.len pre + 1) seen1 row e ->
    ending skipDup skipInvalid n idx k seen counter rows.

(** ** How a run ends *)

(** The inputs treated below: streams short enough for the line counters
    (and so the counts) not to overflow an [int]. *)
Definition withinInt (r : list (list string)) : Prop :=
  GoInt.len r < GoInt.max_int.

(** The five ways a run ends, on the input and the flags alone. *)
Inductive run (name : string) (skipDup skipInvalid : bool)
  : list (list string) -> outcome (option EmailsByDomainQtyList) -> Prop :=
| run_empty :
    run name skipDup skipInvalid []
        (Return None (Some (ParseError 1 0 ErrEmptyFile)))
| run_fieldMissing headerRecord rows :
    name ∉ headerRecord ->
    run name skipDup skipInvalid (headerRecord :: rows)
        (Return None (Some (ParseError 1 0 (ErrFieldNotExists name))))
| run_rejected headerRecord idx pre row post seen1 counter1 e :
    rangeHeader name headerRecord 0 = Some idx ->
    accepted skipDup skipInvalid (GoInt.len headerRecord) idx ∅ ∅ pre seen1 counter1 ->
    rejected skipDup skipInvalid (GoInt.len headerRecord) idx
             (GoInt.len pre + 2) seen1 row e ->
    run name skipDup skipInvalid (headerRecord :: pre ++ row :: post)
        (Return None (Some e))
| run_nothingCounted headerRecord idx rows seen' :
    rangeHeader name headerRecord 0 = Some idx ->
    accepted skipDup skipInvalid (GoInt.len headerRecord) idx ∅ ∅ rows seen' ∅ ->
    run name skipDup skipInvalid (headerRecord :: rows)
        (Return None (Some (ParseError (GoInt.len rows + 2) idx
                                       ErrNoValidEmailsFound)))
| run_result headerRecord idx rows seen' counter' :
    rangeHeader name headerRecord 0 = Some idx ->
    accepted skipDup skipInvalid (GoInt.len headerRecord) idx ∅ ∅ rows seen' counter' ->
    counter' ≠ ∅ ->
    run name skipDup skipInvalid (headerRecord :: rows)
        (Return (Some (sort.Sort (toList counter'))) None).

(** ** The order of the result *)

(** Strictly before, and not after, in the order [Less] compares by. *)
Definition before (x y : EmailsByDomainQty) : Prop := Less x y = true.
Definition notAfter (x y : EmailsByDomainQty) : Prop :=
  String.le (Domain x) (Domain y).

(** ** The email column and the counts *)

(** The emails of the rows: the field at [idx] of each. *)
Definition emailColumn (idx : Z) (rows : list (list string)) : list string :=
  omap (fun record => GoInt.index record idx) rows.

(** The number of rows whose email has the domain [d]. *)
Definition rowsOfDomain (d : string) (idx : Z) (rows : list (list string)) : nat :=
  length (filter (fun email => domainOf email = d) (emailColumn idx rows)).

(** Counting a list of domains, one after the other. *)
Definition tally (domains : list string) (counter : gmap string Z) : gmap string Z :=
  foldl (fun m d => incrementDomain d m) counter domains.

(** ** Resolving the column *)

(** [i] is the first position of [name] in the header. *)
Definition firstMatch (name : string) (headerRecord : list string) (i : nat) : Prop :=
  headerRecord !! i = Some name /\
  forall j, (j < i)%nat -> headerRecord !! j ≠ Some name.

(** Two records the run cannot tell apart: the same width and the same field
    in the column [idx]. *)
Definition sameAt (idx : Z) (record record' : list string) : Prop :=
  GoInt.len record = GoInt.len record' /\
  GoInt.index record idx = GoInt.index record' idx.

(** ** The emails a run counts *)

(** The emails of [emails] that a run holding the marks [seen] counts: the
    valid ones that are not marked, each of them once. *)
Definition countedOf (seen : gmap string bool) (emails : list string)
  : list string :=
  filter (fun email => seen !! email = None /\ IsValidEmail email = true)
         (remove_dups emails).

(** How many of them have the domain [d]. *)
Definition countedOfDomain (d : string) (seen : gmap string bool)
  (emails : list string) : nat :=
  length (filter (fun email => domainOf email = d) (countedOf seen emails)).

(** ** Arrangements of a slice *)

(** What a slice can become by calls of [Swap]. *)
Inductive swapped : EmailsByDomainQtyList -> EmailsByDomainQtyList -> Prop :=
| swapped_refl p : swapped p p
| swapped_step p i j p' q :
    Swap p i j = Some p' -> swapped p' q -> swapped p q.

(** No element is [Less] than one before it: the state [sort.Sort] leaves
    the slice in. *)
Definition sortedByLess (p : EmailsByDomainQtyList) : Prop :=
  forall i j x y,
    (i < j)%nat -> p !! i = Some x -> p !! j = Some y -> Less y x = false.

(** The pairs of a result list. *)
Definition toPairs (p : EmailsByDomainQtyList) : list (string * Z) :=
  (fun x => (Domain x, EmailsCount x)) <$> p.

(** The sum of the counts of a result list. *)
Definition totalCount (p : EmailsByDomainQtyList) : Z :=
  foldr (fun x total => EmailsCount x + total) 0 p.

(** ** The loop of [parseReads], one iteration at a time *)

(** One iteration of the loop on what [Read] returns. *)
Definition iterationOn (c : CustomerImporter) (read : csv.Returned)
  : outcome CustomerImporter :=
  let c := set_line (GoInt.incr (line c)) c in
  match snd read with
  | Some err => Return c (Some err)
  | None =>
      match (if line c =? 1 then determineEmailColumnIndex c (fst read)
             else updateDomainCounter c (fst read)) with
      | Panic => Panic
      | Return c (Some err) => Return c (Some (error c err))
      | Return c None => Return c None
      end
  end.

(** The iterations on the returns [reads], up to the first that returns. *)
Fixpoint processReads (c : CustomerImporter) (reads : list csv.Returned)
  : outcome CustomerImporter :=
  match reads with
  | [] => Return c None
  | read :: reads' =>
      match iterationOn c read with
      | Return c' None => processReads c' reads'
      | stop => stop
      end
  end.


(** A record the reader returns without error has [n] fields: the check of
    [FieldsPerRecord], when the first record has [n]. *)
Definition ofWidth (n : Z) (read : csv.Returned) : Prop :=
  snd read = None -> GoInt.len (fst read) = n.

(** An outcome, with the reader of the receiver it leaves put to [rd]. *)
Definition withReader (rd : csv.Reader) (o : outcome CustomerImporter)
  : outcome CustomerImporter :=
  match o with
  | Return c err => Return (set_reader rd c) err
  | Panic => Panic
  end.

(** * Properties *)

(** ** The package's tests *)

Example test_IsValidEmail :
  IsValidEmail "email@example.com" = true /\ IsValidEmail "emailexample.com" = false.
Proof. split; reflexivity. Qed.

Example test_working_case :
  Import [header; rowOf "mhernandez@github.io"] "email" [emptyOption]
  = Return (Some [mkEmailsByDomainQty "github.io" 1]) None.
Proof. vm_compute. reflexivity. Qed.

Example test_sorting :
  Import [header; rowOf "email@b.io"; rowOf "email@c.io"; rowOf "email@d.io";
          rowOf "email@a.io"] "email" [emptyOption]
  = Return (Some [mkEmailsByDomainQty "a.io" 1; mkEmailsByDomainQty "b.io" 1;
                  mkEmailsByDomainQty "c.io" 1; mkEmailsByDomainQty "d.io" 1]) None.
Proof. vm_compute. reflexivity. Qed.

Example test_invalid_email :
  Import [header; rowOf "mhernandezgithub.io"] "email" [emptyOption]
  = Return None (Some (ParseError 2 2 ErrEmailIsNotValid)).
Proof. vm_compute. reflexivity. Qed.

Example test_empty_email :
  Import [header; rowOf ""] "email" [emptyOption]
  = Return None (Some (ParseError 2 2 ErrEmailIsNotValid)).
Proof. vm_compute. reflexivity. Qed.

Example test_invalid_email_skipped :
  Import [header; rowOf "mhernandezgithub.io"] "email" [SkipErrInvalidEmails]
  = Return None (Some (ParseError 3 2 ErrNoValidEmailsFound)).
Proof. vm_compute. reflexivity. Qed.

Example test_duplicate :
  Import [header; rowOf "mhernandez0@github.io"; rowOf "mhernandez0@github.io"]
    "email" [emptyOption]
  = Return None (Some (ParseError 3 2 ErrEmailDuplicate)).
Proof. vm_compute. reflexivity. Qed.

Example test_duplicate_skipped :
  Import [header; rowOf "mhernandez0@github.io"; rowOf "mhernandez0@github.io"]
    "email" [SkipErrDuplicateEmails]
  = Return (Some [mkEmailsByDomainQty "github.io" 1]) None.
Proof. vm_compute. reflexivity. Qed.

Example test_wrong_number_of_fields :
  Import [header; ["Mildred"; "Hernandez"]%string] "email" [emptyOption]
  = Return None (Some (ParseError 2 csv.fieldCountColumn ErrFieldCount)).
Proof. vm_compute. reflexivity. Qed.

Example test_non_existing_field :
  Import [header] "invalid field" []
  = Return None (Some (ParseError 1 0 (ErrFieldNotExists "invalid field"))).
Proof. vm_compute. reflexivity. Qed.

(** ** Arithmetic of [int] *)

Lemma wrap_small z : GoInt.min_int <= z <= GoInt.max_int -> GoInt.wrap z = z.
Proof.
  unfold GoInt.min_int, GoInt.max_int, GoInt.wrap. intros Hz.
  rewrite Z.mod_small; lia.
Qed.

Lemma incr_small z : 0 <= z < GoInt.max_int -> GoInt.incr z = z + 1.
Proof.
  unfold GoInt.incr. intros Hz. apply wrap_small.
  unfold GoInt.min_int, GoInt.max_int in *. lia.
Qed.

Lemma index_nat {A} (l : list A) (i : nat) : GoInt.index l (Z.of_nat i) = l !! i.
Proof.
  unfold GoInt.index. destruct (Z.ltb_spec (Z.of_nat i) 0); [lia|].
  by rewrite Nat2Z.id.
Qed.

Lemma index_Some {A} (l : list A) i x :
  GoInt.index l i = Some x -> 0 <= i < GoInt.len l.
Proof.
  unfold GoInt.index, GoInt.len. destruct (Z.ltb_spec i 0); [done|].
  intros Hx%lookup_lt_Some. lia.
Qed.

Lemma index_is_Some {A} (l : list A) i :
  0 <= i < GoInt.len l -> is_Some (GoInt.index l i).
Proof.
  unfold GoInt.index, GoInt.len. intros Hi.
  destruct (Z.ltb_spec i 0); [lia|]. apply lookup_lt_is_Some. lia.
Qed.

(** ** Strings: [Split], and the parts around the first separator *)

Lemma append_cons (a : ascii) (s t : string) :
  String a s +:+ t = String a (s +:+ t).
Proof. reflexivity. Qed.

Lemma append_nil (t : string) : EmptyString +:+ t = t.
Proof. reflexivity. Qed.

Section strings.
Variable b : ascii.

Lemma countByte_app (s t : string) :
  countByte b (s +:+ t) = (countByte b s + countByte b t)%nat.
Proof.
  induction s as [|a s IH]; [done|].
  rewrite append_cons. simpl. rewrite IH. lia.
Qed.

Lemma countByte_partBefore (s : string) : countByte b (partBefore b s) = 0%nat.
Proof.
  induction s as [|a s IH]; simpl; [done|].
  destruct (Ascii.eqb a b) eqn:E; simpl; [done|]. by rewrite E.
Qed.

Lemma parts_join (s : string) :
  countByte b s ≠ 0%nat -> s = partBefore b s +:+ String b (partAfter b s).
Proof.
  induction s as [|a s IH]; simpl; [done|].
  destruct (Ascii.eqb_spec a b) as [->|Hne]; simpl; [done|].
  intros H. rewrite append_cons. f_equal. by apply IH.
Qed.

Lemma countByte_parts (s : string) :
  countByte b s ≠ 0%nat -> countByte b s = S (countByte b (partAfter b s)).
Proof.
  induction s as [|a s IH]; simpl; [done|].
  destruct (Ascii.eqb a b); simpl; [done|]. apply IH.
Qed.

Lemma partBefore_join (l d : string) :
  countByte b l = 0%nat -> partBefore b (l +:+ String b d) = l.
Proof.
  induction l as [|a l IH]; rewrite ?append_nil, ?append_cons; simpl.
  - by rewrite Ascii.eqb_refl.
  - destruct (Ascii.eqb a b); [done|]. intros H. by rewrite IH.
Qed.

Lemma partAfter_join (l d : string) :
  countByte b l = 0%nat -> partAfter b (l +:+ String b d) = d.
Proof.
  induction l as [|a l IH]; rewrite ?append_nil, ?append_cons; simpl.
  - by rewrite Ascii.eqb_refl.
  - destruct (Ascii.eqb a b); [done|]. apply IH.
Qed.

Lemma Split_no_sep (s : string) : countByte b s = 0%nat -> Split s b = [s].
Proof.
  induction s as [|a s IH]; simpl; [done|].
  destruct (Ascii.eqb a b); [done|]. intros H. by rewrite IH.
Qed.

Lemma Split_join (l d : string) :
  countByte b l = 0%nat -> Split (l +:+ String b d) b = l :: Split d b.
Proof.
  induction l as [|a l IH]; rewrite ?append_nil, ?append_cons; simpl.
  - by rewrite Ascii.eqb_refl.
  - destruct (Ascii.eqb a b); [done|]. intros H. by rewrite IH.
Qed.

(** [Split] never returns an empty slice, and its first element is the
    part before the first separator. *)
Lemma Split_head (s : string) : exists parts, Split s b = partBefore b s :: parts.
Proof.
  induction s as [|a s [parts IH]]; simpl; [by eexists|].
  destruct (Ascii.eqb a b); [by eexists|]. rewrite IH. by eexists.
Qed.

(** The length of the slice is the number of separators plus one. *)
Lemma Split_length (s : string) : length (Split s b) = S (countByte b s).
Proof.
  induction s as [|a s IH]; simpl; [done|].
  destruct (Ascii.eqb a b); simpl; [by rewrite IH|].
  destruct (Split s b); simpl in *; lia.
Qed.
End strings.

Lemma eqb_empty (s : string) : String.eqb s "" = false <-> s ≠ EmptyString.
Proof. destruct (String.eqb_spec s ""); split; congruence. Qed.

Lemma IsValidEmail_spec (email : string) :
  IsValidEmail email = true <->
  countByte "@" email = 1%nat /\
  exists localPart domainPart,
    email = address localPart domainPart /\
    localPart ≠ EmptyString /\ domainPart ≠ EmptyString.
Proof.
  unfold IsValidEmail.
  rewrite !andb_true_iff, !negb_true_iff, !eqb_empty, Nat.eqb_eq. split.
  - intros [[Hc Hl] Hd]. split; [done|].
    exists (partBefore "@" email), (partAfter "@" email).
    split; [|done]. apply parts_join. lia.
  - intros [Hc (l & d & -> & Hl & Hd)]. unfold address in *.
    assert (countByte "@" l = 0%nat) as Hl0.
    { rewrite countByte_app in Hc. simpl in Hc. lia. }
    rewrite partBefore_join, partAfter_join by done. done.
Qed.

(** A valid address splits into exactly its two parts. *)
Lemma valid_address (email : string) :
  IsValidEmail email = true ->
  Split email "@" = [partBefore "@" email; partAfter "@" email].
Proof.
  intros [Hc (l & d & -> & _)]%IsValidEmail_spec. unfold address in *.
  rewrite countByte_app in Hc. simpl in Hc.
  rewrite Split_join, partBefore_join, partAfter_join by lia.
  rewrite Split_no_sep by lia. done.
Qed.

Lemma getDomainNameFromEmail_valid (email : string) :
  IsValidEmail email = true ->
  getDomainNameFromEmail email = Return (partAfter "@" email) None.
Proof.
  intros Hv. unfold getDomainNameFromEmail. rewrite Hv. simpl.
  by rewrite (valid_address _ Hv).
Qed.

Lemma getDomainNameFromEmail_invalid (email : string) :
  IsValidEmail email = false ->
  getDomainNameFromEmail email = Return EmptyString (Some ErrEmailIsNotValid).
Proof. intros Hv. unfold getDomainNameFromEmail. by rewrite Hv. Qed.

(** ** The options of a run *)

Lemma newImporter_options name skipDup skipInvalid :
  newImporter name (options skipDup skipInvalid) = initial name skipDup skipInvalid.
Proof. by destruct skipDup, skipInvalid. Qed.

(** Any list of them sets the two flags and nothing else, so a run is
    determined by the flags. *)
Lemma newImporter_packageOptions name (opts : list Option) :
  Forall packageOption opts ->
  exists skipDup skipInvalid,
    newImporter name opts = initial name skipDup skipInvalid.
Proof.
  unfold newImporter.
  change (mkCustomerImporter name 0 ∅ ∅ 0 csv.NewReader false false)
    with (initial name false false).
  generalize false at 1 as sd. generalize false as si.
  induction opts as [|o opts IH]; intros si sd Hall; simpl.
  - by exists sd, si.
  - inversion Hall as [|? ? Ho Hopts]; subst.
    destruct Ho as [-> | [-> | ->]].
    + apply (IH si true Hopts).
    + apply (IH true sd Hopts).
    + apply (IH si sd Hopts).
Qed.

(** ** The loop of [parse], one iteration at a time *)

Lemma parse_cons c record r :
  parse c (record :: r) =
  match iteration c record with
  | Return c' None => parse c' r
  | stop => stop
  end.
Proof.
  unfold iteration. cbn [parse].
  destruct (csv.Read _ record) as [rd [err|]]; [done|].
  cbv zeta. destruct (line _ =? 1).
  - destruct (determineEmailColumnIndex _ record) as [c' [e|]|]; done.
  - destruct (updateDomainCounter _ record) as [c' [e|]|]; done.
Qed.

Lemma parse_app c pre r :
  parse c (pre ++ r) =
  match process c pre with
  | Return c' None => parse c' r
  | stop => stop
  end.
Proof.
  revert c. induction pre as [|record pre IH]; intros c; [done|].
  rewrite <- app_comm_cons, parse_cons. cbn [process].
  destruct (iteration c record) as [c' [e|]|]; [done| |done]. apply IH.
Qed.

Lemma process_app c pre rows :
  process c (pre ++ rows) =
  match process c pre with
  | Return c' None => process c' rows
  | stop => stop
  end.
Proof.
  revert c. induction pre as [|record pre IH]; intros c; [done|].
  rewrite <- app_comm_cons. cbn [process].
  destruct (iteration c record) as [c' [e|]|]; [done| |done]. apply IH.
Qed.

(** The last iteration, the one that meets [io.EOF]. *)
Lemma parse_nil c :
  parse c [] =
  let c := set_line (GoInt.incr (line c)) c in
  if line c =? 1 then Return c (Some (error c ErrEmptyFile)) else Return c None.
Proof. done. Qed.

Lemma parse_process c r :
  parse c r =
  match process c r with
  | Return c' None => parse c' []
  | stop => stop
  end.
Proof. rewrite <- (app_nil_r r) at 1. apply parse_app. Qed.

(** A run of iterations that stops with an error stops in one of them. *)
Lemma process_error c rows c' e :
  process c rows = Return c' (Some e) ->
  exists pre row post c1,
    rows = pre ++ row :: post /\
    process c pre = Return c1 None /\
    iteration c1 row = Return c' (Some e).
Proof.
  revert c. induction rows as [|record rows IH]; intros c H; [done|].
  cbn [process] in H.
  destruct (iteration c record) as [c1 [e1|]|] eqn:Hit; [| |done].
  - inversion H; subst. by exists [], record, rows, c.
  - destruct (IH _ H) as (pre & row & post & c2 & -> & Hpre & Hrow).
    exists (record :: pre), row, post, c2. split; [done|]. split; [|done].
    cbn [process]. by rewrite Hit.
Qed.

Lemma process_panic c rows :
  process c rows = Panic ->
  exists pre row post c1,
    rows = pre ++ row :: post /\
    process c pre = Return c1 None /\
    iteration c1 row = Panic.
Proof.
  revert c. induction rows as [|record rows IH]; intros c H; [done|].
  cbn [process] in H.
  destruct (iteration c record) as [c1 [e1|]|] eqn:Hit; [done| |].
  - destruct (IH _ H) as (pre & row & post & c2 & -> & Hpre & Hrow).
    exists (record :: pre), row, post, c2. split; [done|]. split; [|done].
    cbn [process]. by rewrite Hit.
  - by exists [], record, rows, c.
Qed.

(** ** Resolving the column *)

Lemma rangeHeader_Some name headerRecord i idx :
  rangeHeader name headerRecord i = Some idx ->
  i <= idx < i + GoInt.len headerRecord /\
  headerRecord !! Z.to_nat (idx - i) = Some name /\
  forall j, (j < Z.to_nat (idx - i))%nat -> headerRecord !! j ≠ Some name.
Proof.
  unfold GoInt.len. revert i.
  induction headerRecord as [|r rest IH]; intros i H; simpl in H; [done|].
  destruct (String.eqb_spec r name) as [->|Hne].
  - inversion H; subst. rewrite Z.sub_diag. simpl.
    split; [lia|]. split; [done|]. intros j Hj. lia.
  - destruct (IH _ H) as (Hle & Hat & Hbefore).
    rewrite length_cons. split; [lia|].
    replace (Z.to_nat (idx - i)) with (S (Z.to_nat (idx - (i + 1)))) by lia.
    split; [done|]. intros [|j] Hj; simpl; [congruence|]. apply Hbefore. lia.
Qed.

Lemma rangeHeader_None name headerRecord i :
  rangeHeader name headerRecord i = None <-> name ∉ headerRecord.
Proof.
  revert i. induction headerRecord as [|r rest IH]; intros i; simpl.
  - split; [intros _; apply not_elem_of_nil|done].
  - rewrite not_elem_of_cons. destruct (String.eqb_spec r name) as [->|Hne].
    + split; [done|]. intros [? _]. done.
    + rewrite IH. split; [intros ?; split; congruence|tauto].
Qed.

Lemma rangeHeader_elem_of name headerRecord :
  name ∈ headerRecord <-> exists idx, rangeHeader name headerRecord 0 = Some idx.
Proof.
  destruct (rangeHeader name headerRecord 0) as [idx|] eqn:H.
  - split; [by eexists|]. intros _.
    apply rangeHeader_Some in H as (_ & H & _). by eapply list_elem_of_lookup_2.
  - apply rangeHeader_None in H. split; [done|]. by intros [? ?].
Qed.

(** ** One record *)

Lemma updateDomainCounter_seen c record email :
  GoInt.index record (emailColumnIndex c) = Some email ->
  is_Some (countedEmails c !! email) ->
  updateDomainCounter c record =
  Return c (if skipErrDupEmails c then None else Some ErrEmailDuplicate).
Proof.
  intros Hidx [v Hseen]. unfold updateDomainCounter, handleDuplicates.
  rewrite Hidx, Hseen. by destruct (skipErrDupEmails c).
Qed.

Lemma updateDomainCounter_invalid c record email :
  GoInt.index record (emailColumnIndex c) = Some email ->
  countedEmails c !! email = None ->
  IsValidEmail email = false ->
  updateDomainCounter c record =
  Return (marked email c)
         (if skipErrInvalidEmails c then None else Some ErrEmailIsNotValid).
Proof.
  intros Hidx Hnew Hv. unfold updateDomainCounter, handleDuplicates.
  rewrite Hidx, Hnew, (getDomainNameFromEmail_invalid _ Hv).
  unfold marked. cbn [skipErrInvalidEmails set_countedEmails].
  by destruct (skipErrInvalidEmails c).
Qed.

Lemma updateDomainCounter_valid c record email :
  GoInt.index record (emailColumnIndex c) = Some email ->
  countedEmails c !! email = None ->
  IsValidEmail email = true ->
  updateDomainCounter c record =
  Return (counted (domainOf email) (marked email c)) None.
Proof.
  intros Hidx Hnew Hv. unfold updateDomainCounter, handleDuplicates.
  rewrite Hidx, Hnew, (getDomainNameFromEmail_valid _ Hv). done.
Qed.

(** ** One iteration on a data row *)

Lemma iteration_rowStep c record :
  0 < csv.FieldsPerRecord (reader c) ->
  GoInt.incr (line c) ≠ 1 ->
  iteration c record = rowStep c record.
Proof.
  intros Hn Hline. unfold iteration, rowStep, csv.Read.
  cbn [reader set_line csv.FieldsPerRecord csv.numLine].
  destruct (Z.ltb_spec 0 (csv.FieldsPerRecord (reader c))); [|lia].
  change (csv.FieldsPerRecord (reader (advanced c)))
    with (csv.FieldsPerRecord (reader c)).
  destruct (negb _); [done|].
  change (set_reader _ (set_line _ c)) with (advanced c).
  change (line (advanced c)) with (GoInt.incr (line c)).
  destruct (Z.eqb_spec (GoInt.incr (line c)) 1); [done|].
  destruct (GoInt.index record (emailColumnIndex (advanced c))) as [email|] eqn:Hidx.
  - destruct (decide _) as [Hseen|Hnew].
    + rewrite (updateDomainCounter_seen _ _ _ Hidx Hseen).
      by destruct (skipErrDupEmails _).
    + apply eq_None_not_Some in Hnew.
      destruct (IsValidEmail email) eqn:Hv.
      * by rewrite (updateDomainCounter_valid _ _ _ Hidx Hnew Hv).
      * rewrite (updateDomainCounter_invalid _ _ _ Hidx Hnew Hv).
        by destruct (skipErrInvalidEmails _).
  - unfold updateDomainCounter. by rewrite Hidx.
Qed.

(** ** The iteration on the header *)

Lemma iteration_header name skipDup skipInvalid headerRecord :
  iteration (initial name skipDup skipInvalid) headerRecord =
  match rangeHeader name headerRecord 0 with
  | Some idx =>
      Return (resolved name skipDup skipInvalid (GoInt.len headerRecord) idx) None
  | None =>
      Return (resolved name skipDup skipInvalid (GoInt.len headerRecord) 0)
             (Some (ParseError 1 0 (ErrFieldNotExists name)))
  end.
Proof.
  unfold iteration, initial, csv.Read, determineEmailColumnIndex. simpl.
  change (GoInt.incr 0) with 1. simpl.
  by destruct (rangeHeader name headerRecord 0).
Qed.

(** ** The order of the result *)

Lemma ltb_le (s t : string) : String.ltb s t = true -> String.le s t.
Proof.
  unfold String.le, String.ltb, String.leb. by destruct (String.compare s t).
Qed.

Lemma ltb_false_le (s t : string) : String.ltb s t = false -> String.le t s.
Proof.
  unfold String.le, String.ltb, String.leb. rewrite (String.compare_antisym s t).
  by destruct (String.compare t s).
Qed.

Lemma le_ne_ltb (s t : string) : String.le s t -> s ≠ t -> String.ltb s t = true.
Proof.
  unfold String.le, String.ltb, String.leb.
  destruct (String.compare s t) eqn:Hc; [|done..].
  apply String.compare_eq_iff in Hc. done.
Qed.

Lemma ltb_irrefl (s : string) : String.ltb s s = false.
Proof.
  destruct (String.ltb s s) eqn:H; [|done].
  unfold String.ltb in H. pose proof (String.compare_antisym s s) as Ha.
  destruct (String.compare s s); done.
Qed.

Lemma insert_Permutation x p : sort.insert x p ≡ₚ x :: p.
Proof.
  induction p as [|y p IH]; simpl; [done|].
  destruct (Less x y); [done|]. rewrite IH. apply Permutation_swap.
Qed.

Lemma Sort_Permutation p : sort.Sort p ≡ₚ p.
Proof.
  induction p as [|x p IH]; simpl; [done|].
  by rewrite insert_Permutation, IH.
Qed.

Lemma insert_sorted x p :
  StronglySorted notAfter p -> StronglySorted notAfter (sort.insert x p).
Proof.
  induction 1 as [|y p Hp IH Hy]; simpl.
  - repeat constructor.
  - unfold Less. destruct (String.ltb (Domain x) (Domain y)) eqn:Hxy.
    + constructor; [by constructor|]. apply ltb_le in Hxy.
      constructor; [done|]. eapply Forall_impl; [exact Hy|].
      intros z Hz. unfold notAfter in *. by etrans.
    + constructor; [done|]. rewrite insert_Permutation.
      constructor; [|done]. by apply ltb_false_le.
Qed.

Lemma Sort_sorted p : StronglySorted notAfter (sort.Sort p).
Proof. induction p; simpl; [constructor|by apply insert_sorted]. Qed.

(** With no domain twice the order is strict. *)
Lemma sorted_strict p :
  NoDup (Domain <$> p) -> StronglySorted notAfter p -> StronglySorted before p.
Proof.
  induction 2 as [|x p Hp IH Hx]; [constructor|].
  rewrite fmap_cons in H. apply NoDup_cons in H as [Hnotin Hnodup].
  constructor; [by apply IH|].
  apply Forall_forall. intros y Hy. rewrite Forall_forall in Hx.
  apply le_ne_ltb; [by apply Hx|]. intros Heq. apply Hnotin.
  rewrite Heq. by apply list_elem_of_fmap_2.
Qed.

Lemma same_domain_eq p x y :
  NoDup (Domain <$> p) -> x ∈ p -> y ∈ p -> Domain x = Domain y -> x = y.
Proof.
  induction p as [|z p IH]; intros Hnodup Hx Hy Hd; [by apply elem_of_nil in Hx|].
  rewrite fmap_cons in Hnodup. apply NoDup_cons in Hnodup as [Hz Hnodup].
  apply elem_of_cons in Hx as [->|Hx], Hy as [->|Hy]; [done| | |by apply IH].
  - exfalso. apply Hz. rewrite Hd. by apply list_elem_of_fmap_2.
  - exfalso. apply Hz. rewrite <- Hd. by apply list_elem_of_fmap_2.
Qed.

(** Two lists with the same elements, no domain twice, sort to the same
    list: the order in which Go ranges over the map does not matter. *)
Lemma Sort_unique p q :
  NoDup (Domain <$> p) -> p ≡ₚ q -> sort.Sort p = sort.Sort q.
Proof.
  intros Hnodup Hpq.
  apply (StronglySorted_unique_strong notAfter); [|apply Sort_sorted..|].
  - intros x y Hx Hy Hxy Hyx.
    rewrite Sort_Permutation in Hx. rewrite Sort_Permutation, <- Hpq in Hy.
    apply (same_domain_eq p); [done..|]. by apply (anti_symm String.le).
  - by rewrite !Sort_Permutation.
Qed.

(** ** [getResult] *)

Lemma toList_elem_of m x :
  x ∈ toList m <-> m !! Domain x = Some (EmailsCount x).
Proof.
  unfold toList. rewrite list_elem_of_fmap. split.
  - intros ([d v] & -> & Hin). by apply elem_of_map_to_list in Hin.
  - intros H. exists (Domain x, EmailsCount x). split; [by destruct x|].
    by apply elem_of_map_to_list.
Qed.

Lemma toList_domains m : Domain <$> toList m = (map_to_list m).*1.
Proof.
  unfold toList. rewrite <- list_fmap_compose. apply list_fmap_ext.
  by intros _ [d v] _.
Qed.

Lemma toList_NoDup m : NoDup (Domain <$> toList m).
Proof. rewrite toList_domains. apply NoDup_fst_map_to_list. Qed.

Lemma toList_nil m : toList m = [] <-> m = ∅.
Proof.
  unfold toList. rewrite <- map_to_list_empty_iff. split.
  - apply fmap_nil_inv.
  - by intros ->.
Qed.

Lemma Sort_nil p : sort.Sort p = [] <-> p = [].
Proof.
  split; [|by intros ->]. intros H. apply Permutation_nil.
  by rewrite <- (Sort_Permutation p), H.
Qed.

(** [getResult] fails exactly on an empty counter, and otherwise returns the
    sorted entries of the counter. *)
Lemma getResult_spec c :
  getResult c =
  if decide (domainCounter c = ∅)
  then Return None (Some (error c ErrNoValidEmailsFound))
  else Return (Some (sort.Sort (toList (domainCounter c)))) None.
Proof.
  unfold getResult, GoInt.len. case_decide as Hempty.
  - by rewrite Hempty.
  - destruct (sort.Sort (toList (domainCounter c))) as [|x p] eqn:Hs.
    + by apply Sort_nil, toList_nil in Hs.
    + destruct (Z.ltb_spec (Z.of_nat (length (x :: p))) 1) as [Hlt|]; [|done].
      rewrite length_cons in Hlt. lia.
Qed.

(** Whatever the order in which the [range] loop visits the map, the sorted
    list is the same. *)
Lemma getResult_any_order m (visited : EmailsByDomainQtyList) :
  visited ≡ₚ toList m -> sort.Sort visited = sort.Sort (toList m).
Proof.
  intros H. symmetry. apply Sort_unique; [apply toList_NoDup|done].
Qed.

Lemma result_elem_of m x :
  x ∈ sort.Sort (toList m) <-> m !! Domain x = Some (EmailsCount x).
Proof. by rewrite Sort_Permutation, toList_elem_of. Qed.

Lemma result_sorted m : StronglySorted before (sort.Sort (toList m)).
Proof.
  apply sorted_strict; [|apply Sort_sorted].
  rewrite Sort_Permutation. apply toList_NoDup.
Qed.

(** The result is determined by the counter: a strictly sorted list with the
    counter's entries is the result. *)
Lemma result_unique m (p : EmailsByDomainQtyList) :
  StronglySorted before p ->
  (forall x, x ∈ p <-> m !! Domain x = Some (EmailsCount x)) ->
  sort.Sort (toList m) = p.
Proof.
  intros Hsorted Hp.
  apply (StronglySorted_unique_strong before); [|apply result_sorted|done|].
  - intros x y _ _ Hxy Hyx. unfold before, Less in *.
    assert (Domain x = Domain y) as Hd
      by (apply (anti_symm String.le); by apply ltb_le).
    rewrite Hd, ltb_irrefl in Hxy. done.
  - apply NoDup_Permutation.
    + eapply NoDup_fmap_1. rewrite Sort_Permutation. apply toList_NoDup.
    + clear Hp. induction Hsorted as [|x p Hs IH Hx]; constructor; [|done].
      intros Hin. rewrite Forall_forall in Hx. specialize (Hx _ Hin).
      unfold before, Less in Hx. by rewrite ltb_irrefl in Hx.
    + intros x. by rewrite result_elem_of, Hp.
Qed.

(** ** The whole run *)

Lemma Import_finish r name opts :
  Import r name opts = finish (parse (newImporter name opts) r).
Proof. done. Qed.

Lemma Import_nil name skipDup skipInvalid :
  Import [] name (options skipDup skipInvalid)
  = Return None (Some (ParseError 1 0 ErrEmptyFile)).
Proof. by destruct skipDup, skipInvalid. Qed.

Lemma Import_header_missing name skipDup skipInvalid headerRecord rows :
  rangeHeader name headerRecord 0 = None ->
  Import (headerRecord :: rows) name (options skipDup skipInvalid)
  = Return None (Some (ParseError 1 0 (ErrFieldNotExists name))).
Proof.
  intros H. rewrite Import_finish, newImporter_options, parse_cons.
  by rewrite iteration_header, H.
Qed.

(** ** The run past the header *)

Section running.
Variables (name : string) (skipDup skipInvalid : bool) (n idx : Z).
Hypothesis n_pos : 0 < n.
Hypothesis idx_range : 0 <= idx < n.

Local Abbreviation running := (running name skipDup skipInvalid n idx).
Local Abbreviation accepted := (accepted skipDup skipInvalid n idx).
Local Abbreviation rejected := (rejected skipDup skipInvalid n idx).
Local Abbreviation ending := (ending skipDup skipInvalid n idx).

Lemma iteration_running k seen counter record :
  1 <= k < GoInt.max_int ->
  iteration (running k seen counter) record =
  if negb (GoInt.len record =? n) then
    Return (running (k + 1) seen counter)
           (Some (ParseError (k + 1) csv.fieldCountColumn ErrFieldCount))
  else
    match GoInt.index record idx with
    | None => Panic
    | Some email =>
        if decide (is_Some (seen !! email)) then
          Return (running (k + 1) seen counter)
                 (if skipDup then None
                  else Some (ParseError (k + 1) idx ErrEmailDuplicate))
        else if IsValidEmail email then
          Return (running (k + 1) (<[email := true]> seen)
                          (incrementDomain (domainOf email) counter)) None
        else
          Return (running (k + 1) (<[email := true]> seen) counter)
                 (if skipInvalid then None
                  else Some (ParseError (k + 1) idx ErrEmailIsNotValid))
    end.
Proof.
  intros Hk.
  assert (GoInt.incr k = k + 1) as Hincr by (apply incr_small; lia).
  rewrite iteration_rowStep; [|done|simpl; lia].
  unfold rowStep, advanced, running, marked, counted, error.
  cbn [reader line emailColumnIndex countedEmails domainCounter
       skipErrDupEmails skipErrInvalidEmails emailFieldName
       set_reader set_line set_countedEmails set_domainCounter
       csv.FieldsPerRecord csv.numLine].
  rewrite Hincr. done.
Qed.

Lemma iteration_accepted k seen counter record c' :
  1 <= k < GoInt.max_int ->
  iteration (running k seen counter) record = Return c' None ->
  exists seen' counter',
    c' = running (k + 1) seen' counter' /\
    (forall rows seen'' counter'',
        accepted seen' counter' rows seen'' counter'' ->
        accepted seen counter (record :: rows) seen'' counter'').
Proof.
  intros Hk. rewrite iteration_running by done.
  destruct (Z.eqb_spec (GoInt.len record) n) as [Hlen|Hlen]; [|done]. simpl.
  destruct (GoInt.index record idx) as [email|] eqn:Hidx; [|done].
  destruct (decide _) as [Hseen|Hnew].
  - destruct skipDup eqn:Hsd; [|done]. intros [= <-].
    exists seen, counter. split; [done|]. intros. by eapply accepted_duplicate.
  - apply eq_None_not_Some in Hnew. destruct (IsValidEmail email) eqn:Hv.
    + intros [= <-]. eexists _, _. split; [done|].
      intros. by eapply accepted_counted.
    + destruct skipInvalid eqn:Hsi; [|done]. intros [= <-].
      eexists _, _. split; [done|]. intros. by eapply accepted_invalid.
Qed.

Lemma iteration_rejected k seen counter record c' e :
  1 <= k < GoInt.max_int ->
  iteration (running k seen counter) record = Return c' (Some e) ->
  rejected (k + 1) seen record e.
Proof.
  intros Hk. rewrite iteration_running by done.
  destruct (Z.eqb_spec (GoInt.len record) n) as [Hlen|Hlen]; simpl.
  2:{ intros [= <- <-]. by constructor. }
  destruct (GoInt.index record idx) as [email|] eqn:Hidx; [|done].
  destruct (decide _) as [Hseen|Hnew].
  - destruct skipDup eqn:Hsd; [done|]. intros [= <- <-].
    by eapply rejected_duplicate.
  - apply eq_None_not_Some in Hnew. destruct (IsValidEmail email) eqn:Hv; [done|].
    destruct skipInvalid eqn:Hsi; [done|]. intros [= <- <-].
    by eapply rejected_invalid.
Qed.

Lemma rejected_iteration k seen counter record e :
  1 <= k < GoInt.max_int ->
  rejected (k + 1) seen record e ->
  exists c', iteration (running k seen counter) record = Return c' (Some e).
Proof.
  intros Hk Hrej. rewrite iteration_running by done.
  destruct Hrej as [Hlen|email Hlen Hidx Hseen ->|email Hlen Hidx Hnew Hv ->].
  - destruct (Z.eqb_spec (GoInt.len record) n); [done|]. by eexists.
  - destruct (Z.eqb_spec (GoInt.len record) n); [|done]. simpl.
    rewrite Hidx. rewrite decide_True by done. by eexists.
  - destruct (Z.eqb_spec (GoInt.len record) n); [|done]. simpl.
    rewrite Hidx. rewrite decide_False by (rewrite Hnew; by intros [? ?]).
    rewrite Hv. by eexists.
Qed.

(** An index inside the records cannot make an iteration panic. *)
Lemma iteration_no_panic k seen counter record :
  1 <= k < GoInt.max_int ->
  iteration (running k seen counter) record ≠ Panic.
Proof.
  intros Hk. rewrite iteration_running by done.
  destruct (Z.eqb_spec (GoInt.len record) n) as [Hlen|Hlen]; [|done]. simpl.
  destruct (index_is_Some record idx) as [email ->]; [lia|].
  destruct (decide _); [done|]. by destruct (IsValidEmail email).
Qed.

Lemma process_accepted rows : forall k seen counter c',
  1 <= k -> k + GoInt.len rows <= GoInt.max_int ->
  process (running k seen counter) rows = Return c' None ->
  exists seen' counter',
    c' = running (k + GoInt.len rows) seen' counter' /\
    accepted seen counter rows seen' counter'.
Proof.
  unfold GoInt.len.
  induction rows as [|record rows IH]; intros k seen counter c' Hk Hmax H.
  - inversion H; subst. exists seen, counter. simpl.
    rewrite Z.add_0_r. split; [done|constructor].
  - rewrite length_cons in *. cbn [process] in H.
    destruct (iteration _ record) as [c1 [e|]|] eqn:Hit; [done| |done].
    apply iteration_accepted in Hit as (seen1 & counter1 & -> & Hacc); [|lia].
    apply IH in H as (seen' & counter' & -> & Hrows); [|lia..].
    exists seen', counter'. split; [f_equal; lia|]. by apply Hacc.
Qed.

Lemma accepted_process seen counter rows seen' counter' :
  accepted seen counter rows seen' counter' ->
  forall k, 1 <= k -> k + GoInt.len rows <= GoInt.max_int ->
  process (running k seen counter) rows
  = Return (running (k + GoInt.len rows) seen' counter') None.
Proof.
  unfold GoInt.len.
  induction 1 as [seen counter
                 |seen counter record email rows seen' counter' Hlen Hidx Hseen Hsd _ IH
                 |seen counter record email rows seen' counter' Hlen Hidx Hnew Hv Hsi _ IH
                 |seen counter record email rows seen' counter' Hlen Hidx Hnew Hv _ IH];
    intros k Hk Hmax.
  - simpl. by rewrite Z.add_0_r.
  - rewrite length_cons in *. cbn [process].
    rewrite iteration_running by lia.
    destruct (Z.eqb_spec (GoInt.len record) n); [|done]. simpl.
    rewrite Hidx, decide_True by done.
    assert ((if skipDup then None
             else Some (ParseError (k + 1) idx ErrEmailDuplicate)) = None) as ->
      by (by rewrite Hsd).
    rewrite IH by lia. do 2 f_equal. lia.
  - rewrite length_cons in *. cbn [process].
    rewrite iteration_running by lia.
    destruct (Z.eqb_spec (GoInt.len record) n); [|done]. simpl.
    rewrite Hidx, decide_False, Hv by (rewrite Hnew; by intros [? ?]).
    assert ((if skipInvalid then None
             else Some (ParseError (k + 1) idx ErrEmailIsNotValid)) = None) as ->
      by (by rewrite Hsi).
    rewrite IH by lia. do 2 f_equal. lia.
  - rewrite length_cons in *. cbn [process].
    rewrite iteration_running by lia.
    destruct (Z.eqb_spec (GoInt.len record) n); [|done]. simpl.
    rewrite Hidx, decide_False, Hv by (rewrite Hnew; by intros [? ?]).
    rewrite IH by lia. do 2 f_equal. lia.
Qed.

Lemma accepted_app seen counter pre seen1 counter1 rows seen' counter' :
  accepted seen counter pre seen1 counter1 ->
  accepted seen1 counter1 rows seen' counter' ->
  accepted seen counter (pre ++ rows) seen' counter'.
Proof.
  induction 1; intros Hrows; simpl; [done|..].
  - eapply accepted_duplicate; eauto.
  - eapply accepted_invalid; eauto.
  - eapply accepted_counted; eauto.
Qed.

(** Every accepted row has the header's width. *)
Lemma accepted_width seen counter rows seen' counter' :
  accepted seen counter rows seen' counter' ->
  Forall (fun record => GoInt.len record = n) rows.
Proof. induction 1; constructor; done. Qed.

(** Marks are never removed, and every accepted row leaves its email
    marked. *)
Lemma accepted_marks seen counter rows seen' counter' :
  accepted seen counter rows seen' counter' ->
  (forall email, is_Some (seen !! email) -> is_Some (seen' !! email)) /\
  Forall (fun record => exists email,
              GoInt.index record idx = Some email /\ is_Some (seen' !! email))
         rows.
Proof.
  induction 1 as [seen counter
                 |seen counter record email rows seen' counter' Hlen Hidx Hseen Hsd _ [IH1 IH2]
                 |seen counter record email rows seen' counter' Hlen Hidx Hnew Hv Hsi _ [IH1 IH2]
                 |seen counter record email rows seen' counter' Hlen Hidx Hnew Hv _ [IH1 IH2]].
  - split; [done|constructor].
  - split; [done|]. constructor; [|done]. exists email. split; [done|]. by apply IH1.
  - split.
    + intros e He. apply IH1. rewrite lookup_insert. by case_decide.
    + constructor; [|done]. exists email. split; [done|].
      apply IH1. by rewrite lookup_insert_eq.
  - split.
    + intros e He. apply IH1. rewrite lookup_insert. by case_decide.
    + constructor; [|done]. exists email. split; [done|].
      apply IH1. by rewrite lookup_insert_eq.
Qed.

(** The end of the stream after line [k]. *)
Lemma finish_eof k seen counter :
  1 <= k < GoInt.max_int ->
  finish (parse (running k seen counter) []) =
  if decide (counter = ∅)
  then Return None (Some (ParseError (k + 1) idx ErrNoValidEmailsFound))
  else Return (Some (sort.Sort (toList counter))) None.
Proof.
  intros Hk. rewrite parse_nil. cbv zeta.
  cbn [line set_line running].
  rewrite incr_small by lia.
  destruct (Z.eqb_spec (k + 1) 1); [lia|].
  unfold finish. rewrite getResult_spec.
  cbn [domainCounter set_line].
  change (domainCounter (running k seen counter)) with counter.
  by case_decide.
Qed.

Lemma finish_accepted rows seen counter seen' counter' k :
  accepted seen counter rows seen' counter' ->
  1 <= k -> k + GoInt.len rows < GoInt.max_int ->
  finish (parse (running k seen counter) rows) =
  if decide (counter' = ∅)
  then Return None (Some (ParseError (k + GoInt.len rows + 1) idx
                                     ErrNoValidEmailsFound))
  else Return (Some (sort.Sort (toList counter'))) None.
Proof.
  intros Hacc Hk Hmax. rewrite parse_process.
  rewrite (accepted_process _ _ _ _ _ Hacc) by lia.
  apply finish_eof. unfold GoInt.len in *. lia.
Qed.

Lemma finish_rejected pre row post seen counter seen1 counter1 k e :
  accepted seen counter pre seen1 counter1 ->
  rejected (k + GoInt.len pre + 1) seen1 row e ->
  1 <= k -> k + GoInt.len pre < GoInt.max_int ->
  finish (parse (running k seen counter) (pre ++ row :: post))
  = Return None (Some e).
Proof.
  intros Hacc Hrej Hk Hmax. rewrite parse_app.
  rewrite (accepted_process _ _ _ _ _ Hacc) by lia.
  rewrite parse_cons.
  destruct (rejected_iteration (k + GoInt.len pre) seen1 counter1 row e)
    as [c' ->]; [unfold GoInt.len in *; lia|done|done].
Qed.

Lemma run_ending rows : forall k seen counter,
  1 <= k -> k + GoInt.len rows <= GoInt.max_int ->
  ending k seen counter rows.
Proof.
  intros k seen counter Hk Hmax.
  destruct (process (running k seen counter) rows) as [c' [e|]|] eqn:Hp.
  - apply process_error in Hp as (pre & row & post & c1 & -> & Hpre & Hrow).
    assert (0 <= GoInt.len pre < GoInt.len (pre ++ row :: post)) as Hlt.
    { unfold GoInt.len. rewrite length_app, length_cons. lia. }
    apply process_accepted in Hpre
      as (seen1 & counter1 & -> & Hacc); [|lia..].
    apply iteration_rejected in Hrow; [|lia].
    by eapply ending_rejected.
  - apply process_accepted in Hp
      as (seen' & counter' & -> & Hacc); [|lia..].
    by eapply ending_accepted.
  - apply process_panic in Hp as (pre & row & post & c1 & -> & Hpre & Hrow).
    assert (0 <= GoInt.len pre < GoInt.len (pre ++ row :: post)) as Hlt.
    { unfold GoInt.len. rewrite length_app, length_cons. lia. }
    apply process_accepted in Hpre
      as (seen1 & counter1 & -> & Hacc); [|lia..].
    by apply iteration_no_panic in Hrow; [|lia].
Qed.
End running.


Lemma Import_resolved name skipDup skipInvalid headerRecord rows idx :
  rangeHeader name headerRecord 0 = Some idx ->
  Import (headerRecord :: rows) name (options skipDup skipInvalid)
  = finish (parse (running name skipDup skipInvalid (GoInt.len headerRecord) idx
                           1 ∅ ∅) rows).
Proof.
  intros H. rewrite Import_finish, newImporter_options, parse_cons.
  by rewrite iteration_header, H.
Qed.


(** ** How a run ends *)

Lemma len_cons {A} (x : A) (l : list A) : GoInt.len (x :: l) = GoInt.len l + 1.
Proof. unfold GoInt.len. rewrite length_cons. lia. Qed.

Lemma len_app {A} (l1 l2 : list A) :
  GoInt.len (l1 ++ l2) = GoInt.len l1 + GoInt.len l2.
Proof. unfold GoInt.len. rewrite length_app. lia. Qed.

Lemma len_nonneg {A} (l : list A) : 0 <= GoInt.len l.
Proof. unfold GoInt.len. lia. Qed.

Lemma resolved_range name headerRecord idx :
  rangeHeader name headerRecord 0 = Some idx ->
  0 <= idx < GoInt.len headerRecord.
Proof. intros H. apply rangeHeader_Some in H as (H & _). lia. Qed.

(** [Import] ends in one of the ways of [run]. *)
Lemma Import_run r name skipDup skipInvalid :
  withinInt r ->
  run name skipDup skipInvalid r (Import r name (options skipDup skipInvalid)).
Proof.
  unfold withinInt. intros Hmax. destruct r as [|headerRecord rows].
  { rewrite Import_nil. constructor. }
  rewrite len_cons in Hmax. pose proof (len_nonneg rows) as Hrows.
  destruct (rangeHeader name headerRecord 0) as [idx|] eqn:Hidx.
  2:{ rewrite Import_header_missing by done. constructor.
      by apply rangeHeader_None in Hidx. }
  rewrite (Import_resolved _ _ _ _ _ _ Hidx).
  pose proof (resolved_range _ _ _ Hidx) as Hrange.
  assert (0 < GoInt.len headerRecord) as Hn by lia.
  destruct (run_ending name skipDup skipInvalid _ _ Hn Hrange rows 1 ∅ ∅)
    as [seen' counter' Hacc|pre row post seen1 counter1 e -> Hacc Hrej]; [lia..| |].
  - rewrite (finish_accepted _ _ _ _ _ Hn _ _ _ _ _ _ Hacc) by lia.
    case_decide as Hempty.
    + subst counter'. replace (1 + GoInt.len rows + 1) with (GoInt.len rows + 2) by lia.
      by eapply run_nothingCounted.
    + by eapply run_result.
  - rewrite len_app in Hmax. pose proof (len_nonneg pre). pose proof (len_nonneg (row :: post)).
    rewrite (finish_rejected _ _ _ _ _ Hn _ _ _ _ _ _ _ _ _ Hacc Hrej) by lia.
    replace (1 + GoInt.len pre + 1) with (GoInt.len pre + 2) in Hrej by lia.
    by eapply run_rejected.
Qed.

(** A run never panics: the resolved index is inside every record that the
    reader lets through. *)
Lemma Import_no_panic r name skipDup skipInvalid :
  withinInt r -> Import r name (options skipDup skipInvalid) ≠ Panic.
Proof.
  intros Hmax H. pose proof (Import_run r name skipDup skipInvalid Hmax) as Hrun.
  rewrite H in Hrun. inversion Hrun.
Qed.

(** What was taken without stopping is what [parse] on it alone returns. *)
Lemma parse_accepted name skipDup skipInvalid headerRecord rows c' :
  withinInt (headerRecord :: rows) ->
  parse (newImporter name (options skipDup skipInvalid)) (headerRecord :: rows)
  = Return c' None ->
  exists idx,
    rangeHeader name headerRecord 0 = Some idx /\
    emailColumnIndex c' = idx /\
    accepted skipDup skipInvalid (GoInt.len headerRecord) idx ∅ ∅ rows
             (countedEmails c') (domainCounter c').
Proof.
  unfold withinInt. rewrite len_cons. intros Hmax.
  pose proof (len_nonneg rows) as Hrows.
  rewrite newImporter_options, parse_cons, iteration_header.
  destruct (rangeHeader name headerRecord 0) as [idx|] eqn:Hidx; [|done].
  pose proof (resolved_range _ _ _ Hidx) as Hrange.
  assert (0 < GoInt.len headerRecord) as Hn by lia.
  change (resolved name skipDup skipInvalid (GoInt.len headerRecord) idx)
    with (running name skipDup skipInvalid (GoInt.len headerRecord) idx 1 ∅ ∅).
  rewrite parse_process.
  destruct (process _ rows) as [c1 [e|]|] eqn:Hp; [done| |done].
  apply process_accepted in Hp as (seen' & counter' & -> & Hacc); [|lia..].
  rewrite parse_nil. cbv zeta. cbn [line set_line running].
  rewrite incr_small by lia.
  destruct (Z.eqb_spec (1 + GoInt.len rows + 1) 1); [lia|].
  intros [= <-]. by exists idx.
Qed.

Lemma Import_accepted name skipDup skipInvalid headerRecord idx rows seen' counter' :
  rangeHeader name headerRecord 0 = Some idx ->
  accepted skipDup skipInvalid (GoInt.len headerRecord) idx ∅ ∅ rows seen' counter' ->
  withinInt (headerRecord :: rows) ->
  Import (headerRecord :: rows) name (options skipDup skipInvalid) =
  if decide (counter' = ∅)
  then Return None (Some (ParseError (GoInt.len rows + 2) idx ErrNoValidEmailsFound))
  else Return (Some (sort.Sort (toList counter'))) None.
Proof.
  unfold withinInt. rewrite len_cons. intros Hidx Hacc Hmax.
  pose proof (resolved_range _ _ _ Hidx) as Hrange.
  assert (0 < GoInt.len headerRecord) as Hn by lia.
  rewrite (Import_resolved _ _ _ _ _ _ Hidx).
  rewrite (finish_accepted _ _ _ _ _ Hn _ _ _ _ _ _ Hacc) by lia.
  by replace (1 + GoInt.len rows + 1) with (GoInt.len rows + 2) by lia.
Qed.

Lemma Import_rejected name skipDup skipInvalid headerRecord idx pre row post
    seen1 counter1 e :
  rangeHeader name headerRecord 0 = Some idx ->
  accepted skipDup skipInvalid (GoInt.len headerRecord) idx ∅ ∅ pre seen1 counter1 ->
  rejected skipDup skipInvalid (GoInt.len headerRecord) idx
           (GoInt.len pre + 2) seen1 row e ->
  withinInt (headerRecord :: pre) ->
  Import (headerRecord :: pre ++ row :: post) name (options skipDup skipInvalid)
  = Return None (Some e).
Proof.
  unfold withinInt. rewrite len_cons. intros Hidx Hacc Hrej Hmax.
  pose proof (resolved_range _ _ _ Hidx) as Hrange.
  assert (0 < GoInt.len headerRecord) as Hn by lia.
  rewrite (Import_resolved _ _ _ _ _ _ Hidx).
  replace (GoInt.len pre + 2) with (1 + GoInt.len pre + 1) in Hrej by lia.
  by rewrite (finish_rejected _ _ _ _ _ Hn _ _ _ _ _ _ _ _ _ Hacc Hrej) by lia.
Qed.

Lemma accepted_parse name skipDup skipInvalid headerRecord idx rows seen' counter' :
  rangeHeader name headerRecord 0 = Some idx ->
  accepted skipDup skipInvalid (GoInt.len headerRecord) idx ∅ ∅ rows seen' counter' ->
  withinInt (headerRecord :: rows) ->
  exists c',
    parse (newImporter name (options skipDup skipInvalid)) (headerRecord :: rows)
    = Return c' None /\
    countedEmails c' = seen' /\ domainCounter c' = counter' /\
    emailColumnIndex c' = idx /\ line c' = GoInt.len rows + 2.
Proof.
  unfold withinInt. rewrite len_cons. intros Hidx Hacc Hmax.
  pose proof (resolved_range _ _ _ Hidx) as Hrange.
  pose proof (len_nonneg rows) as Hrows.
  assert (0 < GoInt.len headerRecord) as Hn by lia.
  rewrite newImporter_options, parse_cons, iteration_header, Hidx.
  change (resolved name skipDup skipInvalid (GoInt.len headerRecord) idx)
    with (running name skipDup skipInvalid (GoInt.len headerRecord) idx 1 ∅ ∅).
  rewrite parse_process, (accepted_process _ _ _ _ _ Hn _ _ _ _ _ Hacc) by lia.
  rewrite parse_nil. cbv zeta. cbn [line set_line running].
  rewrite incr_small by lia.
  destruct (Z.eqb_spec (1 + GoInt.len rows + 1) 1); [lia|].
  eexists. split; [done|]. simpl. repeat split; lia.
Qed.

(** ** The email column and the counts *)

Lemma emailColumn_cons idx record rows email :
  GoInt.index record idx = Some email ->
  emailColumn idx (record :: rows) = email :: emailColumn idx rows.
Proof. intros H. unfold emailColumn. simpl. by rewrite H. Qed.

Lemma emailColumn_length idx n rows :
  0 <= idx < n ->
  Forall (fun record => GoInt.len record = n) rows ->
  length (emailColumn idx rows) = length rows.
Proof.
  intros Hidx. induction 1 as [|record rows Hlen _ IH]; [done|].
  destruct (index_is_Some record idx) as [email He]; [lia|].
  rewrite (emailColumn_cons _ _ _ _ He). simpl. by rewrite IH.
Qed.

Lemma tally_lookup domains : forall counter d,
  0 <= default 0 (counter !! d) ->
  default 0 (counter !! d) + Z.of_nat (length (filter (fun d' => d' = d) domains))
    <= GoInt.max_int ->
  tally domains counter !! d =
  if decide (length (filter (fun d' => d' = d) domains) = 0%nat)
  then counter !! d
  else Some (default 0 (counter !! d)
             + Z.of_nat (length (filter (fun d' => d' = d) domains))).
Proof.
  induction domains as [|d' domains IH]; intros counter d Hlo Hhi; [done|].
  cbn [tally foldl]. fold (tally domains (incrementDomain d' counter)).
  rewrite filter_cons in *. destruct (decide (d' = d)) as [->|Hne].
  - rewrite length_cons in *. rewrite decide_False by done.
    assert (default 0 (incrementDomain d counter !! d)
            = default 0 (counter !! d) + 1) as Hnew.
    { unfold incrementDomain. rewrite lookup_insert_eq. simpl.
      apply incr_small. lia. }
    rewrite IH by (rewrite Hnew; lia). rewrite Hnew.
    case_decide as Hz.
    + rewrite Hz. unfold incrementDomain. rewrite lookup_insert_eq.
      f_equal. rewrite incr_small by lia. simpl. lia.
    + f_equal. lia.
  - assert (incrementDomain d' counter !! d = counter !! d) as Hsame.
    { unfold incrementDomain. by rewrite lookup_insert_ne. }
    rewrite IH by (rewrite Hsame; done). by rewrite Hsame.
Qed.

(** Rows of the right width whose emails are valid, new and pairwise
    distinct are all accepted and counted, whatever the flags. *)
Lemma accepted_fresh skipDup skipInvalid n idx rows : forall seen counter,
  0 <= idx < n ->
  Forall (fun record => GoInt.len record = n) rows ->
  Forall (fun email => IsValidEmail email = true) (emailColumn idx rows) ->
  NoDup (emailColumn idx rows) ->
  (forall email, email ∈ emailColumn idx rows -> seen !! email = None) ->
  exists seen',
    accepted skipDup skipInvalid n idx seen counter rows seen'
             (tally (domainOf <$> emailColumn idx rows) counter).
Proof.
  induction rows as [|record rows IH]; intros seen counter Hidx Hw Hv Hnd Hnew.
  { exists seen. constructor. }
  apply Forall_cons in Hw as [Hlen Hw].
  destruct (index_is_Some record idx) as [email He]; [lia|].
  rewrite (emailColumn_cons _ _ _ _ He) in *.
  apply Forall_cons in Hv as [Hvalid Hv]. apply NoDup_cons in Hnd as [Hnotin Hnd].
  destruct (IH (<[email := true]> seen)
               (incrementDomain (domainOf email) counter) Hidx Hw Hv Hnd)
    as [seen' Hacc].
  { intros e Hin. rewrite lookup_insert_ne; [|by intros ->].
    apply Hnew. by right. }
  exists seen'. eapply accepted_counted; eauto. apply Hnew. by left.
Qed.

(** Rows of the right width whose emails are all invalid are all skipped
    when invalid emails are skipped and repeated ones are skipped or
    absent: the counter stays as it is. *)
Lemma accepted_all_invalid skipDup n idx rows : forall seen counter,
  0 <= idx < n ->
  Forall (fun record => GoInt.len record = n) rows ->
  Forall (fun email => IsValidEmail email = false) (emailColumn idx rows) ->
  skipDup = true \/
    (NoDup (emailColumn idx rows) /\
     forall email, email ∈ emailColumn idx rows -> seen !! email = None) ->
  exists seen', accepted skipDup true n idx seen counter rows seen' counter.
Proof.
  induction rows as [|record rows IH]; intros seen counter Hidx Hw Hv Hdup.
  { exists seen. constructor. }
  apply Forall_cons in Hw as [Hlen Hw].
  destruct (index_is_Some record idx) as [email He]; [lia|].
  rewrite (emailColumn_cons _ _ _ _ He) in *.
  apply Forall_cons in Hv as [Hinvalid Hv].
  destruct (seen !! email) as [v|] eqn:Hseen.
  - destruct Hdup as [->|[_ Hnew]].
    + destruct (IH seen counter Hidx Hw Hv) as [seen' Hacc]; [by left|].
      exists seen'. eapply accepted_duplicate; eauto.
    + rewrite Hnew in Hseen; [done|by left].
  - destruct (IH (<[email := true]> seen) counter Hidx Hw Hv) as [seen' Hacc].
    { destruct Hdup as [->|[Hnd Hnew]]; [by left|right].
      apply NoDup_cons in Hnd as [Hnotin Hnd]. split; [done|].
      intros e Hin. rewrite lookup_insert_ne; [|by intros ->].
      apply Hnew. by right. }
    exists seen'. eapply accepted_invalid; eauto.
Qed.

(** Every count is at least 1 and at most the number of rows taken. *)
Lemma accepted_counts skipDup skipInvalid n idx seen counter rows seen' counter' :
  accepted skipDup skipInvalid n idx seen counter rows seen' counter' ->
  forall K, 0 <= K ->
  (forall d v, counter !! d = Some v -> 1 <= v <= K) ->
  K + GoInt.len rows <= GoInt.max_int ->
  forall d v, counter' !! d = Some v -> 1 <= v <= K + GoInt.len rows.
Proof.
  induction 1 as [seen counter
                 |seen counter record email rows seen' counter' Hlen Hidx Hseen Hsd _ IH
                 |seen counter record email rows seen' counter' Hlen Hidx Hnew Hv Hsi _ IH
                 |seen counter record email rows seen' counter' Hlen Hidx Hnew Hv _ IH];
    intros K HK Hc Hmax d v Hd; rewrite ?len_cons in *;
    try pose proof (len_nonneg rows) as Hrows.
  - unfold GoInt.len. simpl. specialize (Hc _ _ Hd). lia.
  - specialize (IH K HK Hc ltac:(lia) _ _ Hd). lia.
  - specialize (IH K HK Hc ltac:(lia) _ _ Hd). lia.
  - enough (1 <= v <= (K + 1) + GoInt.len rows) by lia.
    apply (IH (K + 1)) with (d := d); [lia| |lia|done].
    intros d' v'. unfold incrementDomain. rewrite lookup_insert.
    case_decide as Heq.
    + intros [= <-]. destruct (counter !! domainOf email) as [v0|] eqn:Hv0; simpl.
      * specialize (Hc _ _ Hv0). rewrite incr_small by lia. lia.
      * change (GoInt.incr 0) with 1. lia.
    + intros Hd'. specialize (Hc _ _ Hd'). lia.
Qed.

(** ** Any reader *)

Lemma parseReads_cons c read reads :
  parseReads c (read :: reads) =
  match iterationOn c read with
  | Return c' None => parseReads c' reads
  | stop => stop
  end.
Proof.
  unfold iterationOn. cbn [parseReads]. destruct read as [record [err|]]; [done|].
  cbn [fst snd]. cbv zeta. destruct (line _ =? 1).
  - destruct (determineEmailColumnIndex _ record) as [c' [e|]|]; done.
  - destruct (updateDomainCounter _ record) as [c' [e|]|]; done.
Qed.

Lemma parseReads_app c pre reads :
  parseReads c (pre ++ reads) =
  match processReads c pre with
  | Return c' None => parseReads c' reads
  | stop => stop
  end.
Proof.
  revert c. induction pre as [|read pre IH]; intros c; [done|].
  rewrite <- app_comm_cons, parseReads_cons. cbn [processReads].
  destruct (iterationOn c read) as [c' [e|]|]; [done| |done]. apply IH.
Qed.


Lemma parseReads_processReads c reads :
  parseReads c reads =
  match processReads c reads with
  | Return c' None => parseReads c' []
  | stop => stop
  end.
Proof. rewrite <- (app_nil_r reads) at 1. apply parseReads_app. Qed.

Lemma ImportReads_finish reads name options :
  ImportReads reads name options = finish (parseReads (newImporter name options) reads).
Proof. done. Qed.

(** An error of the reader ends the loop, and is returned as it is. *)
Lemma iterationOn_failed c record err :
  iterationOn c (record, Some err)
  = Return (set_line (GoInt.incr (line c)) c) (Some err).
Proof. done. Qed.

(** *** The methods leave the reader alone *)

Lemma updateDomainCounter_withReader c rd record :
  updateDomainCounter (set_reader rd c) record
  = withReader rd (updateDomainCounter c record).
Proof.
  destruct c as [name idx counter seen k rd0 sd si].
  unfold updateDomainCounter, handleDuplicates. cbn.
  destruct (GoInt.index record idx) as [email|]; [|done].
  destruct (seen !! email); cbn.
  - by destruct sd.
  - destruct (getDomainNameFromEmail email) as [d [e|]|]; cbn; [|done..].
    by destruct si.
Qed.

Lemma determineEmailColumnIndex_withReader c rd record :
  determineEmailColumnIndex (set_reader rd c) record
  = withReader rd (determineEmailColumnIndex c record).
Proof.
  destruct c as [name idx counter seen k rd0 sd si].
  unfold determineEmailColumnIndex. cbn.
  by destruct (rangeHeader name record 0).
Qed.

Lemma updateDomainCounter_reader c record c' err :
  updateDomainCounter c record = Return c' err -> reader c' = reader c.
Proof.
  destruct c as [name idx counter seen k rd0 sd si].
  unfold updateDomainCounter, handleDuplicates. cbn.
  destruct (GoInt.index record idx) as [email|]; [|done].
  destruct (seen !! email); cbn.
  - destruct sd; by intros [= <- <-].
  - destruct (getDomainNameFromEmail email) as [d [e|]|]; cbn; [| |done].
    + destruct si; by intros [= <- <-].
    + by intros [= <- <-].
Qed.

Lemma determineEmailColumnIndex_reader c record c' err :
  determineEmailColumnIndex c record = Return c' err -> reader c' = reader c.
Proof.
  unfold determineEmailColumnIndex.
  destruct (rangeHeader _ record 0); by intros [= <- <-].
Qed.

(** [parse] is [parseReads] on the returns of the reader of a stream of one
    record per line. *)
Lemma iteration_reads c rd record :
  iterationOn (set_reader rd c) (record, snd (csv.Read (reader c) record))
  = withReader rd (iteration c record) /\
  forall c' err,
    iteration c record = Return c' err ->
    reader c' = fst (csv.Read (reader c) record).
Proof.
  unfold iterationOn, iteration.
  replace (reader (set_line (GoInt.incr (line c)) c)) with (reader c) by done.
  destruct (csv.Read (reader c) record) as [rd' [err|]]; cbn [fst snd].
  { split; [done|]. by intros c' e [= <- <-]. }
  cbv zeta.
  replace (line (set_reader rd' (set_line (GoInt.incr (line c)) c)))
    with (GoInt.incr (line c)) by done.
  replace (line (set_line (GoInt.incr (line (set_reader rd c))) (set_reader rd c)))
    with (GoInt.incr (line c)) by done.
  replace (set_line (GoInt.incr (line (set_reader rd c))) (set_reader rd c))
    with (set_reader rd (set_reader rd' (set_line (GoInt.incr (line c)) c)))
    by done.
  set (c2 := set_reader rd' (set_line (GoInt.incr (line c)) c)).
  assert (reader c2 = rd') as Hrd by done.
  destruct (GoInt.incr (line c) =? 1).
  - rewrite determineEmailColumnIndex_withReader.
    destruct (determineEmailColumnIndex c2 record) as [c3 [e|]|] eqn:H3; cbn;
      (split; [done|]); [| |done];
      apply determineEmailColumnIndex_reader in H3; intros c' e' [= <- <-]; congruence.
  - rewrite updateDomainCounter_withReader.
    destruct (updateDomainCounter c2 record) as [c3 [e|]|] eqn:H3; cbn;
      (split; [done|]); [| |done];
      apply updateDomainCounter_reader in H3; intros c' e' [= <- <-]; congruence.
Qed.

Lemma parse_reads r : forall c rd,
  parseReads (set_reader rd c) (csv.reads (reader c) r) = withReader rd (parse c r).
Proof.
  induction r as [|record r IH]; intros c rd.
  { destruct c as [name idx counter seen k rd0 sd si]. cbn.
    by destruct (GoInt.incr k =? 1). }
  destruct (iteration_reads c rd record) as [Hit Hrd].
  rewrite parse_cons. cbn [csv.reads].
  destruct (csv.Read (reader c) record) as [rd' err] eqn:Hread. cbn [fst snd] in *.
  rewrite parseReads_cons, Hit.
  destruct (iteration c record) as [c' [e|]|]; cbn; [done| |done].
  rewrite <- (Hrd c' None eq_refl). apply IH.
Qed.

Lemma getResult_set_reader rd c : getResult (set_reader rd c) = getResult c.
Proof. done. Qed.

Lemma Import_reads r name skipDup skipInvalid :
  Import r name (options skipDup skipInvalid)
  = ImportReads (csv.reads csv.NewReader r) name (options skipDup skipInvalid).
Proof.
  unfold Import, ImportReads. rewrite newImporter_options.
  pose proof (parse_reads r (initial name skipDup skipInvalid) csv.NewReader) as H.
  change (set_reader csv.NewReader (initial name skipDup skipInvalid))
    with (initial name skipDup skipInvalid) in H.
  change (reader (initial name skipDup skipInvalid)) with csv.NewReader in H.
  rewrite H.
  destruct (parse _ r) as [c' [e|]|]; cbn; [done| |done].
  by rewrite getResult_set_reader.
Qed.

(** *** What one record does to the receiver *)

Lemma updateDomainCounter_kept c record c' err :
  updateDomainCounter c record = Return c' err ->
  line c' = line c /\ emailColumnIndex c' = emailColumnIndex c /\
  (err = None \/
   exists email,
     GoInt.index record (emailColumnIndex c) = Some email /\
     (err = Some ErrEmailDuplicate \/
      (IsValidEmail email = false /\ err = Some ErrEmailIsNotValid))).
Proof.
  destruct (GoInt.index record (emailColumnIndex c)) as [email|] eqn:Hidx;
    [|unfold updateDomainCounter; by rewrite Hidx].
  destruct (countedEmails c !! email) as [v|] eqn:Hseen.
  - rewrite (updateDomainCounter_seen _ _ _ Hidx) by done.
    intros [= <- <-]. split; [done|]. split; [done|].
    destruct (skipErrDupEmails c); [by left|]. right. exists email. by auto.
  - destruct (IsValidEmail email) eqn:Hv.
    + rewrite (updateDomainCounter_valid _ _ _ Hidx Hseen Hv).
      intros [= <- <-]. by auto.
    + rewrite (updateDomainCounter_invalid _ _ _ Hidx Hseen Hv).
      intros [= <- <-]. split; [done|]. split; [done|].
      destruct (skipErrInvalidEmails c); [by left|]. right. exists email. by auto.
Qed.

Lemma updateDomainCounter_no_panic c record :
  0 <= emailColumnIndex c < GoInt.len record ->
  updateDomainCounter c record ≠ Panic.
Proof.
  intros [email Hidx]%index_is_Some.
  destruct (countedEmails c !! email) as [v|] eqn:Hseen.
  - by rewrite (updateDomainCounter_seen _ _ _ Hidx).
  - destruct (IsValidEmail email) eqn:Hv.
    + by rewrite (updateDomainCounter_valid _ _ _ Hidx Hseen Hv).
    + by rewrite (updateDomainCounter_invalid _ _ _ Hidx Hseen Hv).
Qed.



(** *** Records of the header's width *)

Lemma iterationOn_ofWidth n c read :
  0 <= emailColumnIndex c < n -> ofWidth n read ->
  match iterationOn c read with
  | Panic => False
  | Return c' None => 0 <= emailColumnIndex c' < n
  | Return _ (Some _) => True
  end.
Proof.
  intros Hidx Hread. unfold iterationOn, ofWidth in *.
  destruct read as [record [e|]]; cbn [fst snd] in *; [done|].
  specialize (Hread eq_refl). cbv zeta.
  destruct (line _ =? 1).
  - unfold determineEmailColumnIndex.
    destruct (rangeHeader _ record 0) as [idx|] eqn:Hh; [|done].
    apply resolved_range in Hh. cbn. lia.
  - destruct (updateDomainCounter _ record) as [c2 [e2|]|] eqn:Hup; [done| |].
    + apply updateDomainCounter_kept in Hup as (_ & Hi & _).
      cbn [emailColumnIndex set_line] in Hi. lia.
    + apply updateDomainCounter_no_panic in Hup; [done|].
      cbn [emailColumnIndex set_line]. lia.
Qed.

Lemma processReads_ofWidth n reads : forall c,
  0 <= emailColumnIndex c < n -> Forall (ofWidth n) reads ->
  match processReads c reads with
  | Panic => False
  | Return c' None => 0 <= emailColumnIndex c' < n
  | Return _ (Some _) => True
  end.
Proof.
  induction reads as [|read reads IH]; intros c Hidx Hall; [done|].
  apply Forall_cons in Hall as [Hread Hall]. cbn [processReads].
  pose proof (iterationOn_ofWidth n c read Hidx Hread) as Hit.
  destruct (iterationOn c read) as [c1 [e|]|]; [done| |done]. by apply IH.
Qed.

(** The header, then records of its width: the loop does not panic. *)
Lemma processReads_header name skipDup skipInvalid headerRecord reads :
  Forall (ofWidth (GoInt.len headerRecord)) reads ->
  processReads (initial name skipDup skipInvalid) ((headerRecord, None) :: reads)
  ≠ Panic.
Proof.
  intros Hall. cbn [processReads]. unfold iterationOn. cbn [fst snd]. cbv zeta.
  change (GoInt.incr (line (initial name skipDup skipInvalid))) with 1.
  cbn [line set_line]. change (1 =? 1) with true. cbv iota.
  unfold determineEmailColumnIndex. cbn [emailFieldName set_line initial].
  destruct (rangeHeader name headerRecord 0) as [idx|] eqn:Hidx; [|done].
  apply resolved_range in Hidx.
  set (c1 := set_emailColumnIndex idx _).
  pose proof (processReads_ofWidth (GoInt.len headerRecord) reads c1 Hidx Hall) as H.
  by destruct (processReads c1 reads) as [c2 [e|]|].
Qed.

Lemma processReads_app c pre reads :
  processReads c (pre ++ reads) =
  match processReads c pre with
  | Return c' None => processReads c' reads
  | stop => stop
  end.
Proof.
  revert c. induction pre as [|read pre IH]; intros c; [done|].
  rewrite <- app_comm_cons. cbn [processReads].
  destruct (iterationOn c read) as [c' [e|]|]; [done| |done]. apply IH.
Qed.

(** On a stream of one record per line, [Read] past the first record is
    the check of [FieldsPerRecord], at the position this reader counts. *)
Lemma Read_checked r record :
  0 < csv.FieldsPerRecord r ->
  (record, snd (csv.Read r record))
  = csv.checked (csv.FieldsPerRecord r) record
      (GoInt.incr (csv.numLine r), csv.fieldCountColumn).
Proof.
  intros Hn. unfold csv.Read, csv.checked. cbn [csv.FieldsPerRecord csv.numLine fst snd].
  destruct (Z.ltb_spec 0 (csv.FieldsPerRecord r)) as [_|]; [|lia].
  by destruct (negb _).
Qed.

Lemma checked_other n record position :
  GoInt.len record ≠ n ->
  csv.checked n record position
  = (record, Some (ParseError (fst position) (snd position) ErrFieldCount)).
Proof.
  intros H. unfold csv.checked.
  by destruct (Z.eqb_spec (GoInt.len record) n).
Qed.

(** * The claims *)

(** ** C8: resolving the email column *)

Lemma rangeHeader_firstMatch name headerRecord :
  match rangeHeader name headerRecord 0 with
  | Some idx => exists i, idx = Z.of_nat i /\ firstMatch name headerRecord i
  | None => name ∉ headerRecord
  end.
Proof.
  destruct (rangeHeader name headerRecord 0) as [idx|] eqn:H.
  - apply rangeHeader_Some in H as (Hle & Hat & Hbefore).
    rewrite Z.sub_0_r in *. exists (Z.to_nat idx). split; [lia|done].
  - by apply rangeHeader_None in H.
Qed.

Lemma firstMatch_rangeHeader name headerRecord i :
  firstMatch name headerRecord i ->
  rangeHeader name headerRecord 0 = Some (Z.of_nat i).
Proof.
  intros [Hat Hbefore]. pose proof (rangeHeader_firstMatch name headerRecord) as H.
  destruct (rangeHeader name headerRecord 0) as [idx|].
  - destruct H as (i' & -> & Hat' & Hbefore'). do 2 f_equal.
    destruct (Nat.lt_trichotomy i i') as [Hlt|[->|Hlt]]; [|done|].
    + by destruct (Hbefore' _ Hlt).
    + by destruct (Hbefore _ Hlt).
  - destruct H. by eapply list_elem_of_lookup_2.
Qed.

Lemma accepted_sameAt skipDup skipInvalid n idx seen counter rows seen' counter' :
  accepted skipDup skipInvalid n idx seen counter rows seen' counter' ->
  forall rows', Forall2 (sameAt idx) rows rows' ->
  accepted skipDup skipInvalid n idx seen counter rows' seen' counter'.
Proof.
  induction 1 as [seen counter
                 |seen counter record email rows seen' counter' Hlen Hidx Hseen Hsd _ IH
                 |seen counter record email rows seen' counter' Hlen Hidx Hnew Hv Hsi _ IH
                 |seen counter record email rows seen' counter' Hlen Hidx Hnew Hv _ IH];
    intros rows' Hsame.
  - apply Forall2_nil_inv_l in Hsame as ->. constructor.
  - apply Forall2_cons_inv_l in Hsame as (record' & rows'' & [Hl Hi] & Hrest & ->).
    eapply accepted_duplicate; eauto; congruence.
  - apply Forall2_cons_inv_l in Hsame as (record' & rows'' & [Hl Hi] & Hrest & ->).
    eapply accepted_invalid; eauto; congruence.
  - apply Forall2_cons_inv_l in Hsame as (record' & rows'' & [Hl Hi] & Hrest & ->).
    eapply accepted_counted; eauto; congruence.
Qed.

Lemma rejected_sameAt skipDup skipInvalid n idx k seen record record' e :
  rejected skipDup skipInvalid n idx k seen record e ->
  sameAt idx record record' ->
  rejected skipDup skipInvalid n idx k seen record' e.
Proof.
  intros Hrej [Hl Hi].
  destruct Hrej as [Hlen|email Hlen Hidx Hseen Hsd|email Hlen Hidx Hnew Hv Hsi].
  - apply rejected_fieldCount. congruence.
  - eapply rejected_duplicate; eauto; congruence.
  - eapply rejected_invalid; eauto; congruence.
Qed.

(** A run reads nothing of the data rows but their width and their field in
    the resolved column. *)
Lemma Import_sameAt name skipDup skipInvalid headerRecord idx rows rows' :
  rangeHeader name headerRecord 0 = Some idx ->
  withinInt (headerRecord :: rows) ->
  Forall2 (sameAt idx) rows rows' ->
  Import (headerRecord :: rows') name (options skipDup skipInvalid)
  = Import (headerRecord :: rows) name (options skipDup skipInvalid).
Proof.
  intros Hidx Hmax Hsame.
  pose proof (Forall2_length _ _ _ Hsame) as Hlen.
  assert (GoInt.len rows' = GoInt.len rows) as Hlen' by (unfold GoInt.len; lia).
  assert (withinInt (headerRecord :: rows')) as Hmax'.
  { unfold withinInt in *. rewrite len_cons in *. lia. }
  pose proof (Import_run _ name skipDup skipInvalid Hmax) as Hrun.
  remember (Import (headerRecord :: rows) name (options skipDup skipInvalid))
    as o eqn:Ho. clear Ho.
  inversion Hrun as [|h rs Hnotin|h i pre row post seen1 counter1 e Hi Hacc Hrej Heq
                    |h i rs seen' Hi Hacc|h i rs seen' counter' Hi Hacc Hne];
    subst.
  - apply (rangeHeader_None _ _ 0) in Hnotin. congruence.
  - assert (i = idx) as -> by congruence.
    apply Forall2_app_inv_l in Hsame as (pre' & rest' & Hpre & Hrest & ->).
    apply Forall2_cons_inv_l in Hrest as (row' & post' & Hrow & Hpost & ->).
    assert (GoInt.len pre' = GoInt.len pre) as Hp.
    { unfold GoInt.len. by rewrite (Forall2_length _ _ _ Hpre). }
    eapply Import_rejected; [done|by eapply accepted_sameAt| |].
    + rewrite Hp. by eapply rejected_sameAt.
    + unfold withinInt in *. rewrite !len_cons, ?len_app, ?len_cons in *.
      pose proof (len_nonneg post'). lia.
  - assert (i = idx) as -> by congruence.
    rewrite (Import_accepted _ _ _ _ _ _ _ _ Hidx
               (accepted_sameAt _ _ _ _ _ _ _ _ _ Hacc _ Hsame) Hmax').
    rewrite decide_True by done. by rewrite Hlen'.
  - assert (i = idx) as -> by congruence.
    rewrite (Import_accepted _ _ _ _ _ _ _ _ Hidx
               (accepted_sameAt _ _ _ _ _ _ _ _ _ Hacc _ Hsame) Hmax').
    by rewrite decide_False by done.
Qed.

(** C8. Resolution scans the header from the left and takes the position of
    the first field equal to the configured name: [determineEmailColumnIndex]
    stores that position, or fails when no field matches; a run reads the
    emails from that column and from nothing else in the rows; and a header
    without the field fails the run with [ErrFieldNotExists] on line 1,
    whatever the data rows are. *)
Theorem C8_first_match_or_field_not_found :
  (forall c headerRecord,
      (exists i,
          firstMatch (emailFieldName c) headerRecord i /\
          determineEmailColumnIndex c headerRecord
          = Return (set_emailColumnIndex (Z.of_nat i) c) None) \/
      ((emailFieldName c ∉ headerRecord) /\
       determineEmailColumnIndex c headerRecord
       = Return c (Some (ErrFieldNotExists (emailFieldName c))))) /\
  (forall name skipDup skipInvalid headerRecord i rows rows',
      firstMatch name headerRecord i ->
      withinInt (headerRecord :: rows) ->
      Forall2 (sameAt (Z.of_nat i)) rows rows' ->
      Import (headerRecord :: rows') name (options skipDup skipInvalid)
      = Import (headerRecord :: rows) name (options skipDup skipInvalid)) /\
  (forall name skipDup skipInvalid headerRecord rows,
      name ∉ headerRecord ->
      Import (headerRecord :: rows) name (options skipDup skipInvalid)
      = Return None (Some (ParseError 1 0 (ErrFieldNotExists name)))).
Proof.
  split; [|split].
  - intros c headerRecord. unfold determineEmailColumnIndex.
    pose proof (rangeHeader_firstMatch (emailFieldName c) headerRecord) as H.
    destruct (rangeHeader _ headerRecord 0) as [idx|].
    + destruct H as (i & -> & Hfirst). left. by exists i.
    + by right.
  - intros name skipDup skipInvalid headerRecord i rows rows' Hfirst Hmax Hsame.
    eapply Import_sameAt; [by apply firstMatch_rangeHeader|done..].
  - intros name skipDup skipInvalid headerRecord rows Hnotin.
    apply Import_header_missing. by apply rangeHeader_None.
Qed.

Lemma C8_witness :
  Import [["id"; "email"; "email"]; ["7"; "a@x.io"; "zzz"]]%string "email"
         (options false false)
  = Import [["id"; "email"; "email"]; ["1"; "a@x.io"; "b@y.io"]]%string "email"
           (options false false) /\
  Import [["id"; "mail"]; ["1"; "a@x.io"]]%string "email" (options true true)
  = Return None (Some (ParseError 1 0 (ErrFieldNotExists "email"))).
Proof.
  split.
  - apply (proj1 (proj2 C8_first_match_or_field_not_found)
             "email"%string false false _ 1%nat).
    + split; [reflexivity|]. intros [|j] Hj; [discriminate|lia].
    + unfold withinInt. vm_compute. reflexivity.
    + repeat constructor.
  - apply (proj2 (proj2 C8_first_match_or_field_not_found)).
    intros Hin. repeat (apply elem_of_cons in Hin as [Hin|Hin]; [discriminate|]).
    by apply elem_of_nil in Hin.
Defined.

(** ** C10: a header and nothing else *)

(** C10. A stream of one header that has the field and no data row is not
    an empty input: [parse] returns no error and the run fails with
    [ErrNoValidEmailsFound]; the run fails with [ErrEmptyFile] exactly when
    the stream has no record at all. *)
Theorem C10_header_only_is_not_empty_input :
  (forall name skipDup skipInvalid headerRecord,
      name ∈ headerRecord ->
      exists c' idx,
        parse (newImporter name (options skipDup skipInvalid)) [headerRecord]
        = Return c' None /\
        rangeHeader name headerRecord 0 = Some idx /\
        Import [headerRecord] name (options skipDup skipInvalid)
        = Return None (Some (ParseError 2 idx ErrNoValidEmailsFound))) /\
  (forall r name skipDup skipInvalid,
      withinInt r ->
      (exists l col,
          Import r name (options skipDup skipInvalid)
          = Return None (Some (ParseError l col ErrEmptyFile))) <->
      r = []).
Proof.
  split.
  - intros name skipDup skipInvalid headerRecord
      [idx Hidx]%rangeHeader_elem_of.
    assert (withinInt [headerRecord]) as Hmax by (by vm_compute).
    assert (accepted skipDup skipInvalid (GoInt.len headerRecord) idx ∅ ∅ [] ∅ ∅)
      as Hacc by constructor.
    destruct (accepted_parse name _ _ _ _ _ _ _ Hidx Hacc Hmax) as (c' & Hp & _).
    exists c', idx. split; [done|]. split; [done|].
    by rewrite (Import_accepted _ _ _ _ _ _ _ _ Hidx Hacc Hmax).
  - intros r name skipDup skipInvalid Hmax. split.
    + intros (l & col & H).
      pose proof (Import_run r name skipDup skipInvalid Hmax) as Hrun.
      rewrite H in Hrun.
      inversion Hrun as [| |h i pre row post seen1 counter1 e Hi Hacc Hrej| |];
        subst; [done|]. inversion Hrej.
    + intros ->. exists 1, 0. apply Import_nil.
Qed.

Lemma C10_witness :
  (exists c' idx,
      parse (newImporter "email" (options false false)) [header] = Return c' None /\
      rangeHeader "email" header 0 = Some idx /\
      Import [header] "email" (options false false)
      = Return None (Some (ParseError 2 idx ErrNoValidEmailsFound))) /\
  ((exists l col,
       Import [] "email" (options false false)
       = Return None (Some (ParseError l col ErrEmptyFile))) <->
   @nil (list string) = []).
Proof.
  split.
  - apply (proj1 C10_header_only_is_not_empty_input).
    unfold header. do 2 right. by left.
  - apply (proj2 C10_header_only_is_not_empty_input). by vm_compute.
Defined.

(** ** C7: a record of the wrong width *)

(** C7. A data row whose field count differs from the header's fails the
    run, whatever the two skip flags are: the reader returns the row with
    [csv.ErrFieldCount] and [parse] returns the reader's error as it is,
    before any of the skip logic.  When the reads before it are taken
    without error, the run fails there and then with the reader's
    [ErrFieldCount] error, at the line and the column the reader gives it,
    whatever follows; and on every input with such a row the run fails,
    with an error that nothing after the row changes: the reader's
    [ErrFieldCount] error, unless an iteration before the row returned an
    error first. *)
Theorem C7_wrong_field_count_is_fatal :
  (forall name skipDup skipInvalid headerRecord pre bad post l col c1,
      parseReads (newImporter name (options skipDup skipInvalid))
                 ((headerRecord, None) :: pre) = Return c1 None ->
      GoInt.len bad ≠ GoInt.len headerRecord ->
      ImportReads ((headerRecord, None) :: pre
                     ++ csv.checked (GoInt.len headerRecord) bad (l, col) :: post)
                  name (options skipDup skipInvalid)
      = Return None (Some (ParseError l col ErrFieldCount))) /\
  (forall name skipDup skipInvalid headerRecord pre bad l col,
      Forall (ofWidth (GoInt.len headerRecord)) pre ->
      GoInt.len bad ≠ GoInt.len headerRecord ->
      exists err,
        (forall post,
            ImportReads ((headerRecord, None) :: pre
                           ++ csv.checked (GoInt.len headerRecord) bad (l, col) :: post)
                        name (options skipDup skipInvalid)
            = Return None (Some err)) /\
        (err = ParseError l col ErrFieldCount \/
         exists c',
           processReads (newImporter name (options skipDup skipInvalid))
                        ((headerRecord, None) :: pre)
           = Return c' (Some err))).
Proof.
  split.
  - intros name skipDup skipInvalid headerRecord pre bad post l col c1 Hpre Hbad.
    rewrite parseReads_processReads in Hpre.
    rewrite ImportReads_finish, app_comm_cons, parseReads_app.
    destruct (processReads _ ((headerRecord, None) :: pre)) as [c' [e|]|];
      [done| |done].
    by rewrite parseReads_cons, checked_other.
  - intros name skipDup skipInvalid headerRecord pre bad l col Hpre Hbad.
    pose proof (processReads_header name skipDup skipInvalid headerRecord pre Hpre)
      as Hpanic.
    rewrite <- newImporter_options in Hpanic.
    destruct (processReads _ ((headerRecord, None) :: pre)) as [c' [e|]|] eqn:Hp;
      [| |done].
    + exists e. split; [|right; by exists c']. intros post.
      rewrite ImportReads_finish, app_comm_cons, parseReads_app.
      unfold csv.Returned in *. by rewrite Hp.
    + exists (ParseError l col ErrFieldCount). split; [|by left]. intros post.
      rewrite ImportReads_finish, app_comm_cons, parseReads_app.
      unfold csv.Returned in *. rewrite Hp.
      by rewrite parseReads_cons, checked_other.
Qed.

Lemma C7_witness :
  ImportReads ((header, None) :: [(rowOf "a@x.io", None)]
                 ++ csv.checked (GoInt.len header) ["Mildred"; "Hernandez"]%string (4, 1)
                 :: [(rowOf "b@y.io", None)]) "email" (options true true)
  = Return None (Some (ParseError 4 1 ErrFieldCount)) /\
  (exists err,
      (forall post,
          ImportReads ((header, None) :: [(rowOf "bad", None)]
                         ++ csv.checked (GoInt.len header) ["Mildred"; "Hernandez"]%string
                              (3, 0)
                         :: post) "email" (options false false)
          = Return None (Some err)) /\
      (err = ParseError 3 0 ErrFieldCount \/
       exists c',
         processReads (newImporter "email" (options false false))
                      ((header, None) :: [(rowOf "bad", None)])
         = Return c' (Some err))).
Proof.
  split.
  - eapply (proj1 C7_wrong_field_count_is_fatal "email"%string true true header
              [(rowOf "a@x.io", None)] _ _ 4 1).
    + vm_compute. reflexivity.
    + by vm_compute.
  - apply (proj2 C7_wrong_field_count_is_fatal).
    + repeat constructor.
    + by vm_compute.
Defined.

(** ** C9: what an error carries *)




(** ** C6: no valid email, and the counts of a result *)

Lemma Import_Some_inv r name opts result :
  Import r name opts = Return (Some result) None ->
  exists c,
    parse (newImporter name opts) r = Return c None /\
    domainCounter c ≠ ∅ /\
    result = sort.Sort (toList (domainCounter c)).
Proof.
  rewrite Import_finish. unfold finish.
  destruct (parse _ r) as [c [e|]|]; [done| |done].
  rewrite getResult_spec. case_decide; [done|]. intros [= <-]. by exists c.
Qed.

(** C6. [getResult] fails with [ErrNoValidEmailsFound] exactly when the
    domain counter is empty, and otherwise returns a non-empty list; a run
    whose rows are all skipped (invalid emails skipped, repeated ones skipped
    or absent) fails with [ErrNoValidEmailsFound]; and the list of a
    successful run is non-empty with every count at least 1. *)
Theorem C6_no_valid_emails_or_counts_at_least_one :
  (forall c,
      (domainCounter c = ∅ /\
       getResult c = Return None (Some (ParseError (line c) (emailColumnIndex c)
                                                   ErrNoValidEmailsFound))) \/
      (domainCounter c ≠ ∅ /\
       exists result, getResult c = Return (Some result) None /\ result ≠ [])) /\
  (forall name skipDup headerRecord idx rows,
      rangeHeader name headerRecord 0 = Some idx ->
      withinInt (headerRecord :: rows) ->
      Forall (fun record => GoInt.len record = GoInt.len headerRecord) rows ->
      Forall (fun email => IsValidEmail email = false) (emailColumn idx rows) ->
      skipDup = true \/ NoDup (emailColumn idx rows) ->
      Import (headerRecord :: rows) name (options skipDup true)
      = Return None (Some (ParseError (GoInt.len rows + 2) idx
                                      ErrNoValidEmailsFound))) /\
  (forall r name skipDup skipInvalid result,
      withinInt r ->
      Import r name (options skipDup skipInvalid) = Return (Some result) None ->
      result ≠ [] /\ Forall (fun x => 1 <= EmailsCount x) result).
Proof.
  split; [|split].
  - intros c. rewrite getResult_spec. case_decide as Hempty; [by left|right].
    split; [done|]. eexists. split; [done|]. by rewrite Sort_nil, toList_nil.
  - intros name skipDup headerRecord idx rows Hidx Hmax Hw Hinv Hdup.
    pose proof (resolved_range _ _ _ Hidx) as Hrange.
    destruct (accepted_all_invalid skipDup _ idx rows ∅ ∅ Hrange Hw Hinv)
      as [seen' Hacc].
    { destruct Hdup as [->|Hnd]; [by left|right]. split; [done|].
      intros. apply lookup_empty. }
    by rewrite (Import_accepted _ _ _ _ _ _ _ _ Hidx Hacc Hmax).
  - intros r name skipDup skipInvalid result Hmax H.
    pose proof (Import_run r name skipDup skipInvalid Hmax) as Hrun.
    rewrite H in Hrun.
    inversion Hrun as [| | | |h i rows seen' counter' Hi Hacc Hne]; subst.
    split; [by rewrite Sort_nil, toList_nil|].
    apply Forall_forall. intros x Hx%result_elem_of.
    unfold withinInt in Hmax. rewrite len_cons in Hmax.
    apply (accepted_counts _ _ _ _ _ _ _ _ _ Hacc 0 ltac:(lia)) in Hx; [lia| |lia].
    intros d v Hd. by rewrite lookup_empty in Hd.
Qed.

Lemma C6_witness :
  Import (header :: [rowOf "mhernandezgithub.io"; rowOf ""]) "email"
         (options false true)
  = Return None (Some (ParseError (GoInt.len [rowOf "mhernandezgithub.io"; rowOf ""] + 2)
                                  2 ErrNoValidEmailsFound)) /\
  ([mkEmailsByDomainQty "github.io" 1] ≠ [] /\
   Forall (fun x => 1 <= EmailsCount x) [mkEmailsByDomainQty "github.io" 1]).
Proof.
  split.
  - apply (proj1 (proj2 C6_no_valid_emails_or_counts_at_least_one)).
    + by vm_compute.
    + by vm_compute.
    + repeat constructor.
    + repeat constructor.
    + right. vm_compute. apply NoDup_cons. split.
      * intros Hin. apply list_elem_of_singleton in Hin. discriminate.
      * apply NoDup_singleton.
  - apply (proj2 (proj2 C6_no_valid_emails_or_counts_at_least_one)
             [header; rowOf "mhernandez@github.io"] "email"%string false false).
    + by vm_compute.
    + vm_compute. reflexivity.
Defined.

(** ** C4: repeated emails *)

Lemma emailColumn_elem_of idx rows email :
  email ∈ emailColumn idx rows <->
  exists record, record ∈ rows /\ GoInt.index record idx = Some email.
Proof. unfold emailColumn. apply list_elem_of_omap. Qed.

Lemma accepted_marks_column skipDup skipInvalid n idx seen counter rows seen' counter' email :
  accepted skipDup skipInvalid n idx seen counter rows seen' counter' ->
  email ∈ emailColumn idx rows -> is_Some (seen' !! email).
Proof.
  intros [_ Hall]%accepted_marks (record & Hin & Hidx)%emailColumn_elem_of.
  rewrite Forall_forall in Hall. destruct (Hall _ Hin) as (e & He & Hseen).
  congruence.
Qed.

(** C4. A row whose email is already marked leaves the receiver as it is and
    returns [ErrEmailDuplicate], or nothing when duplicates are skipped.  In a
    run, a row that repeats the email of an earlier row fails the run with
    [ErrEmailDuplicate] on its line when duplicates are not skipped, and is
    ignored (the counts and the marks stay) when they are; so a valid email
    that appears twice is counted once when duplicates are skipped. *)
Theorem C4_repeated_email_fails_or_is_ignored :
  (forall c record email,
      GoInt.index record (emailColumnIndex c) = Some email ->
      is_Some (countedEmails c !! email) ->
      updateDomainCounter c record
      = Return c (if skipErrDupEmails c then None else Some ErrEmailDuplicate)) /\
  (forall name skipInvalid headerRecord pre row post c1 email,
      withinInt (headerRecord :: pre) ->
      parse (newImporter name (options false skipInvalid)) (headerRecord :: pre)
      = Return c1 None ->
      GoInt.len row = GoInt.len headerRecord ->
      GoInt.index row (emailColumnIndex c1) = Some email ->
      email ∈ emailColumn (emailColumnIndex c1) pre ->
      Import (headerRecord :: pre ++ row :: post) name (options false skipInvalid)
      = Return None (Some (ParseError (GoInt.len pre + 2) (emailColumnIndex c1)
                                      ErrEmailDuplicate))) /\
  (forall name skipInvalid headerRecord pre row c1 email,
      withinInt (headerRecord :: pre ++ [row]) ->
      parse (newImporter name (options true skipInvalid)) (headerRecord :: pre)
      = Return c1 None ->
      GoInt.len row = GoInt.len headerRecord ->
      GoInt.index row (emailColumnIndex c1) = Some email ->
      email ∈ emailColumn (emailColumnIndex c1) pre ->
      exists c2,
        parse (newImporter name (options true skipInvalid))
              (headerRecord :: pre ++ [row]) = Return c2 None /\
        domainCounter c2 = domainCounter c1 /\
        countedEmails c2 = countedEmails c1) /\
  (forall name skipInvalid headerRecord idx row1 row2 email,
      rangeHeader name headerRecord 0 = Some idx ->
      GoInt.len row1 = GoInt.len headerRecord ->
      GoInt.len row2 = GoInt.len headerRecord ->
      GoInt.index row1 idx = Some email ->
      GoInt.index row2 idx = Some email ->
      IsValidEmail email = true ->
      Import [headerRecord; row1; row2] name (options true skipInvalid)
      = Return (Some [mkEmailsByDomainQty (domainOf email) 1]) None).
Proof.
  split; [|split; [|split]].
  - apply updateDomainCounter_seen.
  - intros name skipInvalid headerRecord pre row post c1 email Hmax Hpre Hlen Hrow Hin.
    apply parse_accepted in Hpre as (idx & Hidx & <- & Hacc); [|done].
    eapply Import_rejected; [done..| |done].
    eapply rejected_duplicate; eauto. by eapply accepted_marks_column.
  - intros name skipInvalid headerRecord pre row c1 email Hmax Hpre Hlen Hrow Hin.
    assert (withinInt (headerRecord :: pre)) as Hmax1.
    { unfold withinInt in *. rewrite !len_cons, ?len_app, ?len_cons in *.
      pose proof (len_nonneg (@nil (list string))). lia. }
    apply parse_accepted in Hpre as (idx & Hidx & <- & Hacc); [|done].
    assert (accepted true skipInvalid (GoInt.len headerRecord) (emailColumnIndex c1)
                     ∅ ∅ (pre ++ [row]) (countedEmails c1) (domainCounter c1))
      as Hacc2.
    { eapply accepted_app; [done|]. eapply accepted_duplicate; eauto.
      - by eapply accepted_marks_column.
      - constructor. }
    destruct (accepted_parse name _ _ _ _ _ _ _ Hidx Hacc2 Hmax)
      as (c2 & Hp & Hseen & Hcount & _).
    by exists c2.
  - intros name skipInvalid headerRecord idx row1 row2 email Hidx Hl1 Hl2 Hi1 Hi2 Hv.
    assert (accepted true skipInvalid (GoInt.len headerRecord) idx ∅ ∅ [row1; row2]
                     (<[email := true]> ∅) (incrementDomain (domainOf email) ∅))
      as Hacc.
    { eapply accepted_counted; eauto.
      eapply accepted_duplicate; eauto; [|constructor].
      by rewrite lookup_insert_eq. }
    rewrite (Import_accepted _ _ _ _ _ _ _ _ Hidx Hacc) by (by vm_compute).
    unfold incrementDomain. rewrite lookup_empty. simpl.
    change (GoInt.incr 0) with 1. rewrite insert_empty.
    rewrite decide_False by apply map_non_empty_singleton.
    unfold toList. by rewrite map_to_list_singleton.
Qed.

Lemma C4_witness :
  Import (header :: [rowOf "mhernandez0@github.io"] ++ rowOf "mhernandez0@github.io" :: [])
         "email" (options false false)
  = Return None (Some (ParseError 3 2 ErrEmailDuplicate)) /\
  (exists c2,
      parse (newImporter "email" (options true false))
            (header :: [rowOf "mhernandez0@github.io"] ++ [rowOf "mhernandez0@github.io"])
      = Return c2 None /\
      domainCounter c2 = {[ "github.io"%string := 1 ]} /\
      countedEmails c2 = {[ "mhernandez0@github.io"%string := true ]}) /\
  Import [header; rowOf "mhernandez0@github.io"; rowOf "mhernandez0@github.io"]
         "email" (options true false)
  = Return (Some [mkEmailsByDomainQty (domainOf "mhernandez0@github.io") 1]) None.
Proof.
  split; [|split].
  - eapply (proj1 (proj2 C4_repeated_email_fails_or_is_ignored)
              "email"%string false header [rowOf "mhernandez0@github.io"]
              (rowOf "mhernandez0@github.io") []
              (mkCustomerImporter "email" 2 _ _ _ _ _ _) "mhernandez0@github.io"%string).
    + by vm_compute.
    + vm_compute. reflexivity.
    + reflexivity.
    + reflexivity.
    + vm_compute. by left.
  - pose proof (proj1 (proj2 (proj2 C4_repeated_email_fails_or_is_ignored))
                  "email"%string false header [rowOf "mhernandez0@github.io"]
                  (rowOf "mhernandez0@github.io")
                  (mkCustomerImporter "email" 2 {[ "github.io"%string := 1 ]}
                     {[ "mhernandez0@github.io"%string := true ]} 3
                     (csv.mkReader 5 2) true false)
                  "mhernandez0@github.io"%string) as H.
    cbn [domainCounter countedEmails emailColumnIndex] in H. apply H.
    + by vm_compute.
    + vm_compute. reflexivity.
    + reflexivity.
    + reflexivity.
    + vm_compute. by left.
  - apply (proj2 (proj2 (proj2 C4_repeated_email_fails_or_is_ignored))
             "email"%string false header 2); reflexivity.
Defined.

(** ** C3: invalid emails *)

(** What holds of the claim: a new email that fails validation stops the row
    with [ErrEmailIsNotValid], or with nothing when invalid emails are
    skipped, and the domain counter stays as it is. *)
Lemma invalid_email_not_counted c record email :
  GoInt.index record (emailColumnIndex c) = Some email ->
  countedEmails c !! email = None ->
  IsValidEmail email = false ->
  exists c',
    updateDomainCounter c record
    = Return c' (if skipErrInvalidEmails c then None else Some ErrEmailIsNotValid) /\
    domainCounter c' = domainCounter c.
Proof.
  intros Hidx Hnew Hv. exists (marked email c). split; [|done].
  by apply updateDomainCounter_invalid.
Qed.

(** C3 (the code departs from the claim). The claim has a skipped invalid
    email leave the marked emails as they are, an email being marked only
    when it is counted.  [handleDuplicates] marks the email before
    [getDomainNameFromEmail] validates it: a skipped invalid email stays
    marked though it was never counted, and a second row with the same
    invalid email fails the run with [ErrEmailDuplicate] when duplicates are
    not skipped, where the claim has both rows ignored. *)
Theorem C3_skipped_invalid_email_is_marked :
  (forall c record email,
      GoInt.index record (emailColumnIndex c) = Some email ->
      countedEmails c !! email = None ->
      IsValidEmail email = false ->
      skipErrInvalidEmails c = true ->
      exists c',
        updateDomainCounter c record = Return c' None /\
        domainCounter c' = domainCounter c /\
        countedEmails c' !! email = Some true /\
        countedEmails c' ≠ countedEmails c) /\
  Import [header; rowOf "mhernandezgithub.io"; rowOf "mhernandezgithub.io"]
         "email" (options false true)
  = Return None (Some (ParseError 3 2 ErrEmailDuplicate)).
Proof.
  split; [|by vm_compute].
  intros c record email Hidx Hnew Hv Hskip. exists (marked email c).
  rewrite (updateDomainCounter_invalid _ _ _ Hidx Hnew Hv), Hskip.
  split; [done|]. split; [done|].
  assert (countedEmails (marked email c) !! email = Some true) as Hm
    by apply lookup_insert_eq.
  split; [done|]. intros Heq. rewrite Heq in Hm. congruence.
Qed.

Lemma C3_witness :
  exists c',
    updateDomainCounter (running "email" false true 5 2 1 ∅ ∅)
                        (rowOf "mhernandezgithub.io") = Return c' None /\
    domainCounter c' = ∅ /\
    countedEmails c' !! "mhernandezgithub.io"%string = Some true /\
    countedEmails c' ≠ ∅.
Proof.
  apply (proj1 C3_skipped_invalid_email_is_marked
           (running "email" false true 5 2 1 ∅ ∅) (rowOf "mhernandezgithub.io")
           "mhernandezgithub.io"%string); reflexivity.
Defined.

(** ** C2: valid emails and their domain *)

Lemma domainOf_address localPart domainPart :
  IsValidEmail (address localPart domainPart) = true ->
  domainOf (address localPart domainPart) = domainPart.
Proof.
  intros [Hc _]%IsValidEmail_spec. unfold domainOf, address in *.
  rewrite countByte_app in Hc. simpl in Hc. apply partAfter_join. lia.
Qed.

(** C2. (spec-modelled) An email is valid exactly when it has one [@] with a
    non-empty local part before it and a non-empty domain part after it;
    [getDomainNameFromEmail] returns that domain part for a valid email and
    [ErrEmailIsNotValid] for any other; and whenever a row changes the
    domain counter, its email is a valid [localPart@domainPart] and the count
    incremented is [domainPart]'s. *)
Theorem C2_valid_email_and_its_domain :
  (forall email,
      IsValidEmail email = true <->
      countByte "@" email = 1%nat /\
      exists localPart domainPart,
        email = address localPart domainPart /\
        localPart ≠ EmptyString /\ domainPart ≠ EmptyString) /\
  (forall localPart domainPart,
      IsValidEmail (address localPart domainPart) = true ->
      getDomainNameFromEmail (address localPart domainPart)
      = Return domainPart None) /\
  (forall email,
      IsValidEmail email = false ->
      getDomainNameFromEmail email = Return EmptyString (Some ErrEmailIsNotValid)) /\
  (forall c record c' err,
      updateDomainCounter c record = Return c' err ->
      domainCounter c' ≠ domainCounter c ->
      exists localPart domainPart,
        GoInt.index record (emailColumnIndex c)
        = Some (address localPart domainPart) /\
        IsValidEmail (address localPart domainPart) = true /\
        err = None /\
        domainCounter c' = incrementDomain domainPart (domainCounter c)).
Proof.
  split; [|split; [|split]].
  - apply IsValidEmail_spec.
  - intros l d Hv. rewrite (getDomainNameFromEmail_valid _ Hv).
    f_equal. by apply domainOf_address.
  - apply getDomainNameFromEmail_invalid.
  - intros c record c' err Hupd Hchanged.
    destruct (GoInt.index record (emailColumnIndex c)) as [email|] eqn:Hidx.
    2:{ unfold updateDomainCounter in Hupd. by rewrite Hidx in Hupd. }
    destruct (countedEmails c !! email) as [v|] eqn:Hseen.
    { rewrite (updateDomainCounter_seen _ _ _ Hidx) in Hupd by done.
      by inversion Hupd; subst. }
    destruct (IsValidEmail email) eqn:Hv.
    2:{ rewrite (updateDomainCounter_invalid _ _ _ Hidx Hseen Hv) in Hupd.
        by inversion Hupd; subst. }
    rewrite (updateDomainCounter_valid _ _ _ Hidx Hseen Hv) in Hupd.
    inversion Hupd; subst.
    pose proof Hv as [_ (l & d & -> & _)]%IsValidEmail_spec.
    exists l, d. split; [done|]. split; [done|]. split; [done|].
    by rewrite (domainOf_address _ _ Hv).
Qed.

Lemma C2_witness :
  (IsValidEmail "email@example.com" = true <->
   countByte "@" "email@example.com" = 1%nat /\
   exists localPart domainPart,
     "email@example.com"%string = address localPart domainPart /\
     localPart ≠ EmptyString /\ domainPart ≠ EmptyString) /\
  getDomainNameFromEmail (address "mhernandez" "github.io")
  = Return "github.io"%string None /\
  getDomainNameFromEmail "mhernandezgithub.io"
  = Return EmptyString (Some ErrEmailIsNotValid) /\
  (exists localPart domainPart,
      GoInt.index (rowOf "a@x.io") 2 = Some (address localPart domainPart) /\
      IsValidEmail (address localPart domainPart) = true /\
      @None Error = None /\
      {[ "x.io"%string := 1 ]} = incrementDomain domainPart ∅).
Proof.
  split; [|split; [|split]].
  - apply (proj1 C2_valid_email_and_its_domain).
  - apply (proj1 (proj2 C2_valid_email_and_its_domain)). reflexivity.
  - apply (proj1 (proj2 (proj2 C2_valid_email_and_its_domain))). reflexivity.
  - pose proof (proj2 (proj2 (proj2 C2_valid_email_and_its_domain))
                  (running "email" false false 5 2 1 ∅ ∅) (rowOf "a@x.io")
                  (mkCustomerImporter "email" 2 {[ "x.io"%string := 1 ]}
                     {[ "a@x.io"%string := true ]} 1 (csv.mkReader 5 1) false false)
                  None) as H.
    cbn [domainCounter emailColumnIndex running] in H. apply H.
    + vm_compute. reflexivity.
    + apply map_non_empty_singleton.
Defined.

(** ** C1: every row counts once *)

Lemma filter_fmap_length {A B} (f : A -> B) (P : B -> Prop)
    `{forall y, Decision (P y)} (l : list A) :
  length (filter P (f <$> l)) = length (filter (fun x => P (f x)) l).
Proof.
  induction l as [|x l IH]; [done|].
  rewrite fmap_cons, !filter_cons. destruct (decide (P (f x))); simpl; by rewrite IH.
Qed.

(** The counter after counting [domains] from nothing: every domain has the
    number of its occurrences, and a domain that does not occur has no
    entry. *)
Lemma tally_empty_lookup domains d :
  Z.of_nat (length domains) <= GoInt.max_int ->
  tally domains ∅ !! d =
  if decide (length (filter (fun d' => d' = d) domains) = 0%nat) then None
  else Some (Z.of_nat (length (filter (fun d' => d' = d) domains))).
Proof.
  intros Hmax.
  pose proof (length_filter (fun d' => d' = d) domains) as Hle.
  rewrite tally_lookup; rewrite lookup_empty; simpl; [|lia..].
  by case_decide.
Qed.

Lemma tally_Permutation domains domains' :
  Z.of_nat (length domains) <= GoInt.max_int ->
  domains' ≡ₚ domains -> tally domains' ∅ = tally domains ∅.
Proof.
  intros Hmax Hperm. apply map_eq. intros d.
  assert (length domains' = length domains) as Hlen
    by (by apply Permutation_length).
  assert (length (filter (fun d' => d' = d) domains')
          = length (filter (fun d' => d' = d) domains)) as Hf.
  { apply Permutation_length. by apply filter_Permutation. }
  rewrite !tally_empty_lookup by lia. by rewrite Hf.
Qed.

Lemma tally_nonempty d domains counter : tally (d :: domains) counter ≠ ∅.
Proof.
  revert d counter. induction domains as [|d' domains IH]; intros d counter.
  - cbn. unfold incrementDomain. apply insert_non_empty.
  - apply (IH d' (incrementDomain d counter)).
Qed.

(** Valid, pairwise distinct emails in rows of the right width: the run
    counts every one of them, whatever the flags. *)
Lemma Import_fresh name skipDup skipInvalid headerRecord idx rows :
  rangeHeader name headerRecord 0 = Some idx ->
  withinInt (headerRecord :: rows) ->
  Forall (fun record => GoInt.len record = GoInt.len headerRecord) rows ->
  Forall (fun email => IsValidEmail email = true) (emailColumn idx rows) ->
  NoDup (emailColumn idx rows) ->
  Import (headerRecord :: rows) name (options skipDup skipInvalid) =
  if decide (rows = [])
  then Return None (Some (ParseError 2 idx ErrNoValidEmailsFound))
  else Return (Some (sort.Sort (toList (tally (domainOf <$> emailColumn idx rows) ∅))))
              None.
Proof.
  intros Hidx Hmax Hw Hv Hnd.
  pose proof (resolved_range _ _ _ Hidx) as Hrange.
  destruct (accepted_fresh skipDup skipInvalid _ idx rows ∅ ∅ Hrange Hw Hv Hnd)
    as [seen' Hacc]; [intros; apply lookup_empty|].
  rewrite (Import_accepted _ _ _ _ _ _ _ _ Hidx Hacc Hmax).
  destruct rows as [|record rows].
  - by rewrite decide_True, decide_True.
  - rewrite (decide_False (P := record :: rows = [])) by done.
    apply Forall_cons in Hw as [Hlen _].
    destruct (index_is_Some record idx) as [email He]; [lia|].
    rewrite (emailColumn_cons _ _ _ _ He), fmap_cons.
    by rewrite decide_False by apply tally_nonempty.
Qed.

(** The claim fails on a header without data rows: nothing contradicts its
    premises, and the run fails. *)
Lemma C1_counterexample :
  "email"%string ∈ ["email"%string] /\
  Forall (fun record : list string => GoInt.len record = GoInt.len ["email"%string])
         [] /\
  Forall (fun email => IsValidEmail email = true) (emailColumn 0 []) /\
  NoDup (emailColumn 0 []) /\
  Import [["email"%string]] "email" (options false false)
  = Return None (Some (ParseError 2 0 ErrNoValidEmailsFound)).
Proof.
  split; [by left|]. split; [constructor|]. split; [constructor|].
  split; [constructor|]. by vm_compute.
Qed.

(** C1 (amended). For every input whose header has the configured field,
    with at least one data row, whose data rows all have the header's field
    count and pairwise distinct, valid emails, a run with both skip flags off
    succeeds, and a domain is reported with a count exactly when that count
    is the number of data rows whose email has that domain and at least one
    row has it. *)
Theorem C1_every_row_counts_once name headerRecord idx rows :
  rangeHeader name headerRecord 0 = Some idx ->
  rows ≠ [] ->
  withinInt (headerRecord :: rows) ->
  Forall (fun record => GoInt.len record = GoInt.len headerRecord) rows ->
  Forall (fun email => IsValidEmail email = true) (emailColumn idx rows) ->
  NoDup (emailColumn idx rows) ->
  exists result,
    Import (headerRecord :: rows) name (options false false)
    = Return (Some result) None /\
    forall d v,
      mkEmailsByDomainQty d v ∈ result <->
      v = Z.of_nat (rowsOfDomain d idx rows) /\ rowsOfDomain d idx rows ≠ 0%nat.
Proof.
  intros Hidx Hrows Hmax Hw Hv Hnd.
  rewrite (Import_fresh _ _ _ _ _ _ Hidx Hmax Hw Hv Hnd).
  rewrite decide_False by done. eexists. split; [done|].
  intros d v. rewrite result_elem_of. simpl.
  pose proof (resolved_range _ _ _ Hidx) as Hrange.
  rewrite tally_empty_lookup.
  2:{ rewrite length_fmap, (emailColumn_length _ _ _ Hrange Hw).
      unfold withinInt in Hmax. rewrite len_cons in Hmax.
      unfold GoInt.len in Hmax. lia. }
  rewrite filter_fmap_length. fold (rowsOfDomain d idx rows).
  case_decide as Hz; split.
  - done.
  - by intros [_ ?].
  - intros [= <-]. done.
  - by intros [-> _].
Qed.

Lemma C1_witness :
  exists result,
    Import (header :: [rowOf "a@x.io"; rowOf "b@x.io"; rowOf "c@y.io"]) "email"
           (options false false)
    = Return (Some result) None /\
    forall d v,
      mkEmailsByDomainQty d v ∈ result <->
      v = Z.of_nat (rowsOfDomain d 2 [rowOf "a@x.io"; rowOf "b@x.io"; rowOf "c@y.io"]) /\
      rowsOfDomain d 2 [rowOf "a@x.io"; rowOf "b@x.io"; rowOf "c@y.io"] ≠ 0%nat.
Proof.
  apply C1_every_row_counts_once.
  - reflexivity.
  - discriminate.
  - by vm_compute.
  - repeat constructor.
  - repeat constructor.
  - vm_compute. repeat (apply NoDup_cons; split;
      [intros Hin; repeat (apply elem_of_cons in Hin as [Hin|Hin]; [discriminate|]);
       by apply elem_of_nil in Hin|]).
    apply NoDup_nil_2.
Defined.

(** ** C5: the order of the result *)

(** What [Less] compares by is the lexicographic order on bytes: [s] is
    before [t] when [s] is a proper prefix of [t], or when at the first
    position where they differ the byte of [s] is the smaller. *)
Lemma ltb_lexicographic (s t : string) :
  String.ltb s t = true <->
  exists p,
    (exists b t', s = p /\ t = p +:+ String b t') \/
    (exists a b s' t',
        s = p +:+ String a s' /\ t = p +:+ String b t' /\
        (N_of_ascii a < N_of_ascii b)%N).
Proof.
  unfold String.ltb. revert t. induction s as [|a s IH]; intros [|b t]; simpl.
  - split; [done|]. intros [p [(b & t' & <- & H)|(a & b & s' & t' & H & _)]].
    + done.
    + by destruct p.
  - split; [|done]. intros _. exists EmptyString. left. by exists b, t.
  - split; [done|]. intros [p [(b & t' & <- & H)|(a' & b & s' & t' & _ & H & _)]].
    + done.
    + by destruct p.
  - unfold Ascii.compare. destruct (N.compare_spec (N_of_ascii a) (N_of_ascii b))
      as [Heq|Hlt|Hgt].
    + assert (a = b) as ->.
      { by rewrite <- (ascii_N_embedding a), <- (ascii_N_embedding b), Heq. }
      rewrite IH. split.
      * intros [p [(b' & t' & -> & ->)|(a' & b' & s' & t' & -> & -> & Hlt)]].
        -- exists (String b p). left. by exists b', t'.
        -- exists (String b p). right. by exists a', b', s', t'.
      * intros [[|c p] [(b' & t' & Hs & Ht)|(a' & b' & s' & t' & Hs & Ht & Hlt)]].
        -- done.
        -- rewrite append_nil in Hs, Ht. inversion Hs; inversion Ht; subst. lia.
        -- rewrite append_cons in Ht. inversion Hs; inversion Ht; subst.
           exists p. left. by exists b', t'.
        -- rewrite append_cons in Hs, Ht. inversion Hs; inversion Ht; subst.
           exists p. right. by exists a', b', s', t'.
    + split; [|done]. intros _. exists EmptyString. right. by exists a, b, s, t.
    + split; [done|].
      intros [[|c p] [(b' & t' & Hs & Ht)|(a' & b' & s' & t' & Hs & Ht & Hlt)]].
      * done.
      * rewrite append_nil in Hs, Ht. inversion Hs; inversion Ht; subst. lia.
      * rewrite append_cons in Ht. inversion Hs; inversion Ht; subst. lia.
      * rewrite append_cons in Hs, Ht. inversion Hs; inversion Ht; subst. lia.
Qed.

(** C5. The list of every successful run is strictly ascending by domain
    in the order of [Less] (the lexicographic order on bytes,
    [ltb_lexicographic]).  The result does not depend on the order of the
    rows: feeding the rows of an input with valid, pairwise distinct emails
    in another order gives the same outcome; and rows whose emails have the
    domains a.io, b.io, c.io and d.io once each, in any order, give exactly
    a.io, b.io, c.io, d.io with a count of 1 each. *)
Theorem C5_sorted_whatever_the_row_order :
  (forall r name opts result,
      Import r name opts = Return (Some result) None ->
      StronglySorted before result) /\
  (forall name skipDup skipInvalid headerRecord idx rows rows',
      rangeHeader name headerRecord 0 = Some idx ->
      withinInt (headerRecord :: rows) ->
      Forall (fun record => GoInt.len record = GoInt.len headerRecord) rows ->
      Forall (fun email => IsValidEmail email = true) (emailColumn idx rows) ->
      NoDup (emailColumn idx rows) ->
      rows' ≡ₚ rows ->
      Import (headerRecord :: rows') name (options skipDup skipInvalid)
      = Import (headerRecord :: rows) name (options skipDup skipInvalid)) /\
  (forall name skipDup skipInvalid headerRecord idx rows,
      rangeHeader name headerRecord 0 = Some idx ->
      Forall (fun record => GoInt.len record = GoInt.len headerRecord) rows ->
      Forall (fun email => IsValidEmail email = true) (emailColumn idx rows) ->
      NoDup (emailColumn idx rows) ->
      domainOf <$> emailColumn idx rows ≡ₚ ["a.io"; "b.io"; "c.io"; "d.io"]%string ->
      Import (headerRecord :: rows) name (options skipDup skipInvalid)
      = Return (Some [mkEmailsByDomainQty "a.io" 1; mkEmailsByDomainQty "b.io" 1;
                      mkEmailsByDomainQty "c.io" 1; mkEmailsByDomainQty "d.io" 1])
               None).
Proof.
  split; [|split].
  - intros r name opts result (c & _ & _ & ->)%Import_Some_inv.
    apply result_sorted.
  - intros name skipDup skipInvalid headerRecord idx rows rows'
      Hidx Hmax Hw Hv Hnd Hperm.
    pose proof (resolved_range _ _ _ Hidx) as Hrange.
    assert (emailColumn idx rows' ≡ₚ emailColumn idx rows) as Hcol
      by (unfold emailColumn; by rewrite Hperm).
    assert (length rows' = length rows) as Hlen by (by rewrite Hperm).
    assert (withinInt (headerRecord :: rows')) as Hmax'.
    { unfold withinInt, GoInt.len in *. rewrite !length_cons in *. lia. }
    rewrite (Import_fresh _ _ _ _ _ _ Hidx Hmax Hw Hv Hnd).
    rewrite (Import_fresh _ _ _ _ _ rows' Hidx Hmax')
      by (by rewrite ?Hcol, ?Hperm).
    destruct rows as [|record rows].
    + apply Permutation_nil_r in Hperm as ->. done.
    + destruct rows' as [|record' rows']; [done|].
      rewrite !decide_False by done.
      rewrite (tally_Permutation (domainOf <$> emailColumn idx (record :: rows))
                 (domainOf <$> emailColumn idx (record' :: rows'))); [done| |].
      * rewrite length_fmap, (emailColumn_length _ _ _ Hrange Hw).
        unfold withinInt, GoInt.len in Hmax. rewrite !length_cons in *. lia.
      * by rewrite Hcol.
  - intros name skipDup skipInvalid headerRecord idx rows Hidx Hw Hv Hnd Hperm.
    pose proof (resolved_range _ _ _ Hidx) as Hrange.
    assert (length rows = 4%nat) as Hlen.
    { rewrite <- (emailColumn_length _ _ _ Hrange Hw).
      rewrite <- (length_fmap domainOf), Hperm. done. }
    assert (withinInt (headerRecord :: rows)) as Hmax.
    { unfold withinInt, GoInt.len. rewrite length_cons, Hlen. by vm_compute. }
    rewrite (Import_fresh _ _ _ _ _ _ Hidx Hmax Hw Hv Hnd).
    rewrite decide_False by (intros ->; done).
    rewrite (tally_Permutation ["a.io"; "b.io"; "c.io"; "d.io"]%string);
      [by vm_compute|by vm_compute|done].
Qed.

Lemma C5_witness :
  StronglySorted before [mkEmailsByDomainQty "github.io" 1] /\
  Import (header :: [rowOf "email@a.io"; rowOf "email@b.io"; rowOf "email@c.io";
                     rowOf "email@d.io"]) "email" (options false false)
  = Import (header :: [rowOf "email@b.io"; rowOf "email@c.io"; rowOf "email@d.io";
                       rowOf "email@a.io"]) "email" (options false false) /\
  Import (header :: [rowOf "w@d.io"; rowOf "x@b.io"; rowOf "y@a.io"; rowOf "z@c.io"])
         "email" (options false false)
  = Return (Some [mkEmailsByDomainQty "a.io" 1; mkEmailsByDomainQty "b.io" 1;
                  mkEmailsByDomainQty "c.io" 1; mkEmailsByDomainQty "d.io" 1])
           None.
Proof.
  split; [|split].
  - apply (proj1 C5_sorted_whatever_the_row_order
             [header; rowOf "mhernandez@github.io"] "email"%string [emptyOption]).
    vm_compute. reflexivity.
  - apply (proj1 (proj2 C5_sorted_whatever_the_row_order)
             "email"%string false false header 2).
    + reflexivity.
    + by vm_compute.
    + repeat constructor.
    + repeat constructor.
    + vm_compute. repeat (apply NoDup_cons; split;
        [intros Hin; repeat (apply elem_of_cons in Hin as [Hin|Hin]; [discriminate|]);
         by apply elem_of_nil in Hin|]).
      apply NoDup_nil_2.
    + change ([rowOf "email@a.io"; rowOf "email@b.io"; rowOf "email@c.io";
               rowOf "email@d.io"])
        with ([rowOf "email@a.io"] ++ [rowOf "email@b.io"; rowOf "email@c.io";
                                       rowOf "email@d.io"]).
      change ([rowOf "email@b.io"; rowOf "email@c.io"; rowOf "email@d.io";
               rowOf "email@a.io"])
        with ([rowOf "email@b.io"; rowOf "email@c.io"; rowOf "email@d.io"]
                ++ [rowOf "email@a.io"]).
      apply Permutation_app_comm.
  - apply (proj2 (proj2 C5_sorted_whatever_the_row_order)
             "email"%string false false header 2).
    + reflexivity.
    + repeat constructor.
    + repeat constructor.
    + vm_compute. repeat (apply NoDup_cons; split;
        [intros Hin; repeat (apply elem_of_cons in Hin as [Hin|Hin]; [discriminate|]);
         by apply elem_of_nil in Hin|]).
      apply NoDup_nil_2.
    + vm_compute.
      change ["d.io"; "b.io"; "a.io"; "c.io"]%string
        with (["d.io"; "b.io"]%string ++ "a.io"%string :: ["c.io"]%string).
      apply Permutation_sym, Permutation_cons_app. simpl.
      change ["d.io"; "b.io"; "c.io"]%string
        with (["d.io"]%string ++ "b.io"%string :: ["c.io"]%string).
      apply Permutation_cons_app. simpl.
      change ["d.io"; "c.io"]%string
        with (["d.io"]%string ++ "c.io"%string :: []).
      apply Permutation_cons_app. done.
Defined.

(** * Further properties *)

(** ** What a run counts *)

Lemma countedOf_elem_of seen emails email :
  email ∈ countedOf seen emails <->
  email ∈ emails /\ seen !! email = None /\ IsValidEmail email = true.
Proof.
  unfold countedOf. rewrite list_elem_of_filter, elem_of_remove_dups. tauto.
Qed.

Lemma countedOf_NoDup seen emails : NoDup (countedOf seen emails).
Proof. apply NoDup_filter, NoDup_remove_dups. Qed.

(** An email that is marked, or that is not valid, adds nothing. *)
Lemma countedOf_skipped seen emails email :
  is_Some (seen !! email) \/ IsValidEmail email = false ->
  countedOf seen (email :: emails) ≡ₚ countedOf (<[email := true]> seen) emails
  /\ (is_Some (seen !! email) ->
      countedOf seen (email :: emails) ≡ₚ countedOf seen emails).
Proof.
  intros Hskip. split.
  - apply NoDup_Permutation; [apply countedOf_NoDup..|].
    intros e. rewrite !countedOf_elem_of, elem_of_cons, lookup_insert.
    case_decide as Heq; [subst e|].
    + split; [|by intros (_ & ? & _)].
      intros (_ & Hnew & Hv). destruct Hskip as [[? ?]|?]; congruence.
    + split; [intros ([?|?] & ? & ?)|]; [congruence|done|tauto].
  - intros [v Hseen]. apply NoDup_Permutation; [apply countedOf_NoDup..|].
    intros e. rewrite !countedOf_elem_of, elem_of_cons.
    split; [intros ([->|?] & ? & ?)|]; [congruence|done|tauto].
Qed.

(** A valid email that is not marked adds itself, once. *)
Lemma countedOf_counted seen emails email :
  seen !! email = None -> IsValidEmail email = true ->
  countedOf seen (email :: emails)
  ≡ₚ email :: countedOf (<[email := true]> seen) emails.
Proof.
  intros Hnew Hv. apply NoDup_Permutation.
  - apply countedOf_NoDup.
  - apply NoDup_cons. split; [|apply countedOf_NoDup].
    rewrite countedOf_elem_of, lookup_insert_eq. by intros (_ & ? & _).
  - intros e. rewrite elem_of_cons, !countedOf_elem_of, elem_of_cons, lookup_insert.
    case_decide as Heq; [subst e|].
    + split; [by left|]. intros _. split; [by left|done].
    + split; [intros ([?|?] & ? & ?)|intros [?|(? & ? & ?)]];
        [congruence|by right|congruence|tauto].
Qed.

Lemma countedOfDomain_Permutation d seen seen' emails emails' :
  countedOf seen emails ≡ₚ countedOf seen' emails' ->
  countedOfDomain d seen emails = countedOfDomain d seen' emails'.
Proof. unfold countedOfDomain. by intros ->. Qed.

(** The counter after the rows a run accepts: every domain has gained the
    number of emails counted for it. *)
Lemma accepted_counter skipDup skipInvalid n idx seen counter rows seen' counter' :
  accepted skipDup skipInvalid n idx seen counter rows seen' counter' ->
  forall K, 0 <= K ->
  (forall d v, counter !! d = Some v -> 1 <= v <= K) ->
  K + GoInt.len rows <= GoInt.max_int ->
  forall d,
    counter' !! d =
    if decide (countedOfDomain d seen (emailColumn idx rows) = 0%nat)
    then counter !! d
    else Some (default 0 (counter !! d)
               + Z.of_nat (countedOfDomain d seen (emailColumn idx rows))).
Proof.
  induction 1 as [seen counter
                 |seen counter record email rows seen' counter' Hlen Hidx Hseen Hsd _ IH
                 |seen counter record email rows seen' counter' Hlen Hidx Hnew Hv Hsi _ IH
                 |seen counter record email rows seen' counter' Hlen Hidx Hnew Hv _ IH];
    intros K HK Hc Hmax d; rewrite ?len_cons in *;
    try pose proof (len_nonneg rows) as Hrows;
    rewrite ?(emailColumn_cons _ _ _ _ Hidx).
  - done.
  - rewrite (countedOfDomain_Permutation d seen seen (email :: emailColumn idx rows)
               (emailColumn idx rows))
      by (apply countedOf_skipped; [by left|done]).
    apply (IH K); [done..|lia].
  - rewrite (countedOfDomain_Permutation d seen (<[email := true]> seen)
               (email :: emailColumn idx rows) (emailColumn idx rows))
      by (apply countedOf_skipped; by right).
    apply (IH K); [done..|lia].
  - assert (countedOfDomain d seen (email :: emailColumn idx rows)
            = ((if decide (domainOf email = d) then 1 else 0)
               + countedOfDomain d (<[email := true]> seen) (emailColumn idx rows))%nat)
      as ->.
    { unfold countedOfDomain. rewrite (countedOf_counted _ _ _ Hnew Hv).
      rewrite filter_cons. by destruct (decide (domainOf email = d)). }
    assert (forall d' v', incrementDomain (domainOf email) counter !! d' = Some v' ->
                          1 <= v' <= K + 1) as Hc'.
    { intros d' v'. unfold incrementDomain. rewrite lookup_insert.
      case_decide as Heq.
      - intros [= <-]. destruct (counter !! domainOf email) as [v0|] eqn:Hv0; simpl.
        + specialize (Hc _ _ Hv0). rewrite incr_small by lia. lia.
        + change (GoInt.incr 0) with 1. lia.
      - intros Hd'. specialize (Hc _ _ Hd'). lia. }
    rewrite (IH (K + 1) ltac:(lia) Hc' ltac:(lia) d).
    unfold incrementDomain. rewrite lookup_insert.
    destruct (decide (domainOf email = d)) as [->|Hne].
    + assert (0 <= default 0 (counter !! d) <= K) as Hv0.
      { destruct (counter !! d) as [v0|] eqn:Hv0; simpl; [|lia].
        specialize (Hc _ _ Hv0). lia. }
      rewrite incr_small by lia. simpl.
      repeat case_decide; try lia; f_equal; lia.
    + simpl. done.
Qed.

Lemma countedOfDomain_pos d seen emails email :
  email ∈ emails -> seen !! email = None -> IsValidEmail email = true ->
  domainOf email = d ->
  countedOfDomain d seen emails ≠ 0%nat.
Proof.
  intros Hin Hnew Hv Hd Hz. unfold countedOfDomain in Hz.
  apply length_zero_iff_nil in Hz.
  assert (email ∈ filter (fun e => domainOf e = d) (countedOf seen emails)) as H.
  { apply list_elem_of_filter. split; [done|]. by apply countedOf_elem_of. }
  rewrite Hz in H. by apply elem_of_nil in H.
Qed.

Lemma countedOfDomain_pos_inv d seen emails :
  countedOfDomain d seen emails ≠ 0%nat ->
  exists email,
    email ∈ emails /\ seen !! email = None /\ IsValidEmail email = true /\
    domainOf email = d.
Proof.
  unfold countedOfDomain. intros Hnz.
  destruct (filter _ (countedOf seen emails)) as [|email l] eqn:Hf; [done|].
  assert (email ∈ filter (fun e => domainOf e = d) (countedOf seen emails)) as H
    by (rewrite Hf; by left).
  apply list_elem_of_filter in H as [Hd (Hin & Hnew & Hv)%countedOf_elem_of].
  by exists email.
Qed.

(** The entries of the counter at the end of a run. *)
Lemma run_counter skipDup skipInvalid n idx rows seen' counter' d :
  accepted skipDup skipInvalid n idx ∅ ∅ rows seen' counter' ->
  GoInt.len rows <= GoInt.max_int ->
  counter' !! d =
  if decide (countedOfDomain d ∅ (emailColumn idx rows) = 0%nat) then None
  else Some (Z.of_nat (countedOfDomain d ∅ (emailColumn idx rows))).
Proof.
  intros Hacc Hmax.
  rewrite (accepted_counter _ _ _ _ _ _ _ _ _ Hacc 0 ltac:(lia)); [| |lia].
  - rewrite lookup_empty. simpl. by case_decide.
  - intros d' v. by rewrite lookup_empty.
Qed.

(** X1. In every successful run, whatever the flags, a domain is reported
    with a count exactly when that count is the number of valid emails of
    the column that have the domain, each email taken once, and there is at
    least one. *)
Theorem X1_counts_are_distinct_valid_emails
    name skipDup skipInvalid headerRecord idx rows result :
  rangeHeader name headerRecord 0 = Some idx ->
  withinInt (headerRecord :: rows) ->
  Import (headerRecord :: rows) name (options skipDup skipInvalid)
  = Return (Some result) None ->
  forall d v,
    mkEmailsByDomainQty d v ∈ result <->
    v = Z.of_nat (countedOfDomain d ∅ (emailColumn idx rows)) /\
    countedOfDomain d ∅ (emailColumn idx rows) ≠ 0%nat.
Proof.
  intros Hidx Hmax H d v.
  pose proof (Import_run _ name skipDup skipInvalid Hmax) as Hrun.
  rewrite H in Hrun.
  inversion Hrun as [| | | |h i rs seen' counter' Hi Hacc Hne]; subst.
  assert (i = idx) as -> by congruence.
  rewrite result_elem_of. simpl.
  unfold withinInt in Hmax. rewrite len_cons in Hmax.
  rewrite (run_counter _ _ _ _ _ _ _ d Hacc) by lia.
  case_decide as Hz; split.
  - done.
  - by intros [_ ?].
  - by intros [= <-].
  - by intros [-> _].
Qed.

Lemma X1_witness :
  mkEmailsByDomainQty "x.io" 2 ∈ [mkEmailsByDomainQty "x.io" 2] <->
  2 = Z.of_nat (countedOfDomain "x.io" ∅
                  (emailColumn 2 [rowOf "a@x.io"; rowOf "bad"; rowOf "a@x.io";
                                  rowOf "b@x.io"])) /\
  countedOfDomain "x.io" ∅
    (emailColumn 2 [rowOf "a@x.io"; rowOf "bad"; rowOf "a@x.io"; rowOf "b@x.io"])
  ≠ 0%nat.
Proof.
  refine (X1_counts_are_distinct_valid_emails "email" true true header 2
            [rowOf "a@x.io"; rowOf "bad"; rowOf "a@x.io"; rowOf "b@x.io"]
            [mkEmailsByDomainQty "x.io" 2] _ _ _ "x.io"%string 2).
  - reflexivity.
  - by vm_compute.
  - vm_compute. reflexivity.
Defined.

(** ** When a run succeeds *)

(** With invalid emails not skipped, every accepted email is valid. *)
Lemma accepted_strict_valid skipDup n idx seen counter rows seen' counter' :
  accepted skipDup false n idx seen counter rows seen' counter' ->
  (forall email, is_Some (seen !! email) -> IsValidEmail email = true) ->
  Forall (fun email => IsValidEmail email = true) (emailColumn idx rows).
Proof.
  induction 1 as [seen counter
                 |seen counter record email rows seen' counter' Hlen Hidx Hseen Hsd _ IH
                 |seen counter record email rows seen' counter' Hlen Hidx Hnew Hv Hsi _ IH
                 |seen counter record email rows seen' counter' Hlen Hidx Hnew Hv _ IH];
    intros Hvalid; rewrite ?(emailColumn_cons _ _ _ _ Hidx).
  - constructor.
  - constructor; [by apply Hvalid|by apply IH].
  - done.
  - constructor; [done|]. apply IH. intros e. rewrite lookup_insert.
    case_decide; [by subst|apply Hvalid].
Qed.

(** With repeated emails not skipped, the accepted emails are new and
    pairwise distinct. *)
Lemma accepted_strict_NoDup skipInvalid n idx seen counter rows seen' counter' :
  accepted false skipInvalid n idx seen counter rows seen' counter' ->
  NoDup (emailColumn idx rows) /\
  forall email, email ∈ emailColumn idx rows -> seen !! email = None.
Proof.
  induction 1 as [seen counter
                 |seen counter record email rows seen' counter' Hlen Hidx Hseen Hsd _ IH
                 |seen counter record email rows seen' counter' Hlen Hidx Hnew Hv Hsi _ IH
                 |seen counter record email rows seen' counter' Hlen Hidx Hnew Hv _ IH];
    rewrite ?(emailColumn_cons _ _ _ _ Hidx).
  - split; [constructor|]. by intros e ?%elem_of_nil.
  - done.
  - destruct IH as [Hnd Hfresh]. split.
    + apply NoDup_cons. split; [|done]. intros Hin%Hfresh.
      by rewrite lookup_insert_eq in Hin.
    + intros e [->|Hin%Hfresh]%elem_of_cons; [done|].
      rewrite lookup_insert in Hin. by case_decide.
  - destruct IH as [Hnd Hfresh]. split.
    + apply NoDup_cons. split; [|done]. intros Hin%Hfresh.
      by rewrite lookup_insert_eq in Hin.
    + intros e [->|Hin%Hfresh]%elem_of_cons; [done|].
      rewrite lookup_insert in Hin. by case_decide.
Qed.

(** Rows of the right width are accepted when every invalid email may be
    skipped and every repeated email may be skipped. *)
Lemma accepted_build skipDup skipInvalid n idx rows : forall seen counter,
  0 <= idx < n ->
  Forall (fun record => GoInt.len record = n) rows ->
  skipInvalid = true \/
    Forall (fun email => IsValidEmail email = true) (emailColumn idx rows) ->
  skipDup = true \/
    (NoDup (emailColumn idx rows) /\
     forall email, email ∈ emailColumn idx rows -> seen !! email = None) ->
  exists seen' counter',
    accepted skipDup skipInvalid n idx seen counter rows seen' counter'.
Proof.
  induction rows as [|record rows IH]; intros seen counter Hidx Hw Hv Hdup.
  { exists seen, counter. constructor. }
  apply Forall_cons in Hw as [Hlen Hw].
  destruct (index_is_Some record idx) as [email He]; [lia|].
  rewrite (emailColumn_cons _ _ _ _ He) in *.
  assert (skipInvalid = true \/
          Forall (fun email => IsValidEmail email = true) (emailColumn idx rows))
    as Hv'.
  { destruct Hv as [?|[_ ?]%Forall_cons]; [by left|by right]. }
  destruct (seen !! email) as [b|] eqn:Hseen.
  - destruct Hdup as [Hsd|[_ Hfresh]].
    + destruct (IH seen counter Hidx Hw Hv') as (seen' & counter' & Hacc);
        [by left|].
      exists seen', counter'. eapply accepted_duplicate; eauto.
    + rewrite Hfresh in Hseen; [done|by left].
  - assert (skipDup = true \/
            (NoDup (emailColumn idx rows) /\
             forall e, e ∈ emailColumn idx rows ->
                       <[email := true]> seen !! e = None)) as Hdup'.
    { destruct Hdup as [?|[[Hnotin Hnd]%NoDup_cons Hfresh]]; [by left|right].
      split; [done|]. intros e Hin. rewrite lookup_insert_ne; [|by intros ->].
      apply Hfresh. by right. }
    destruct (IsValidEmail email) eqn:Hvalid.
    + destruct (IH (<[email := true]> seen)
                   (incrementDomain (domainOf email) counter) Hidx Hw Hv' Hdup')
        as (seen' & counter' & Hacc).
      exists seen', counter'. eapply accepted_counted; eauto.
    + destruct Hv as [Hsi|[Hbad _]%Forall_cons]; [|congruence].
      destruct (IH (<[email := true]> seen) counter Hidx Hw Hv' Hdup')
        as (seen' & counter' & Hacc).
      exists seen', counter'. eapply accepted_invalid; eauto.
Qed.

(** X2. A run on a header that has the field succeeds exactly when every
    data row has the header's field count, every email is valid unless
    invalid emails are skipped, the emails are pairwise distinct unless
    repeated emails are skipped, and at least one email is valid. *)
Theorem X2_run_succeeds_exactly_when name skipDup skipInvalid headerRecord idx rows :
  rangeHeader name headerRecord 0 = Some idx ->
  withinInt (headerRecord :: rows) ->
  (exists result,
      Import (headerRecord :: rows) name (options skipDup skipInvalid)
      = Return (Some result) None) <->
  Forall (fun record => GoInt.len record = GoInt.len headerRecord) rows /\
  (skipInvalid = true \/
   Forall (fun email => IsValidEmail email = true) (emailColumn idx rows)) /\
  (skipDup = true \/ NoDup (emailColumn idx rows)) /\
  Exists (fun email => IsValidEmail email = true) (emailColumn idx rows).
Proof.
  intros Hidx Hmax.
  pose proof (resolved_range _ _ _ Hidx) as Hrange.
  assert (GoInt.len rows <= GoInt.max_int) as Hlen.
  { unfold withinInt in Hmax. rewrite len_cons in Hmax. lia. }
  split.
  - intros [result H].
    pose proof (Import_run _ name skipDup skipInvalid Hmax) as Hrun.
    rewrite H in Hrun.
    inversion Hrun as [| | | |h i rs seen' counter' Hi Hacc Hne]; subst.
    assert (i = idx) as -> by congruence.
    split; [by eapply accepted_width|]. split; [|split].
    + destruct skipInvalid; [by left|right].
      eapply accepted_strict_valid; [done|]. intros e [? He]. by rewrite lookup_empty in He.
    + destruct skipDup; [by left|right]. by eapply accepted_strict_NoDup.
    + apply map_choose in Hne as (d & v & Hd).
      rewrite (run_counter _ _ _ _ _ _ _ d Hacc Hlen) in Hd.
      case_decide as Hz; [done|].
      apply countedOfDomain_pos_inv in Hz as (email & Hin & _ & Hv & _).
      apply Exists_exists. by exists email.
  - intros (Hw & Hv & Hdup & Hex).
    destruct (accepted_build skipDup skipInvalid _ idx rows ∅ ∅ Hrange Hw Hv)
      as (seen' & counter' & Hacc).
    { destruct Hdup as [?|?]; [by left|right]. split; [done|].
      intros. apply lookup_empty. }
    rewrite (Import_accepted _ _ _ _ _ _ _ _ Hidx Hacc Hmax).
    apply Exists_exists in Hex as (email & Hin & Hvalid).
    pose proof (run_counter _ _ _ _ _ _ _ (domainOf email) Hacc Hlen) as Hd.
    rewrite decide_False in Hd
      by (eapply countedOfDomain_pos; eauto using lookup_empty).
    rewrite decide_False; [by eexists|]. intros ->. by rewrite lookup_empty in Hd.
Qed.

Lemma X2_witness :
  (exists result,
      Import (header :: [rowOf "a@x.io"; rowOf "bad"; rowOf "a@x.io"]) "email"
             (options true true) = Return (Some result) None) <->
  Forall (fun record => GoInt.len record = GoInt.len header)
         [rowOf "a@x.io"; rowOf "bad"; rowOf "a@x.io"] /\
  (true = true \/
   Forall (fun email => IsValidEmail email = true)
          (emailColumn 2 [rowOf "a@x.io"; rowOf "bad"; rowOf "a@x.io"])) /\
  (true = true \/ NoDup (emailColumn 2 [rowOf "a@x.io"; rowOf "bad"; rowOf "a@x.io"])) /\
  Exists (fun email => IsValidEmail email = true)
         (emailColumn 2 [rowOf "a@x.io"; rowOf "bad"; rowOf "a@x.io"]).
Proof.
  apply (X2_run_succeeds_exactly_when "email" true true header 2).
  - reflexivity.
  - by vm_compute.
Defined.

(** ** What the flags change *)

Lemma accepted_more_flags skipDup skipInvalid skipDup' skipInvalid'
    n idx seen counter rows seen' counter' :
  accepted skipDup skipInvalid n idx seen counter rows seen' counter' ->
  (skipDup = true -> skipDup' = true) ->
  (skipInvalid = true -> skipInvalid' = true) ->
  accepted skipDup' skipInvalid' n idx seen counter rows seen' counter'.
Proof.
  intros Hacc Hsd Hsi. induction Hacc.
  - constructor.
  - eapply accepted_duplicate; eauto.
  - eapply accepted_invalid; eauto.
  - eapply accepted_counted; eauto.
Qed.

(** X3. The skip flags matter only to runs that would fail: when a run
    succeeds, the run with more flags set succeeds with the same list.  And
    a flag silences its own error: no run fails with [ErrEmailIsNotValid]
    when invalid emails are skipped, nor with [ErrEmailDuplicate] when
    repeated emails are skipped. *)
Theorem X3_flags_only_matter_to_failing_runs :
  (forall r name skipDup skipInvalid skipDup' skipInvalid' result,
      withinInt r ->
      Import r name (options skipDup skipInvalid) = Return (Some result) None ->
      (skipDup = true -> skipDup' = true) ->
      (skipInvalid = true -> skipInvalid' = true) ->
      Import r name (options skipDup' skipInvalid') = Return (Some result) None) /\
  (forall r name skipDup skipInvalid e,
      withinInt r ->
      Import r name (options skipDup skipInvalid) = Return None (Some e) ->
      (Err e = ErrEmailIsNotValid -> skipInvalid = false) /\
      (Err e = ErrEmailDuplicate -> skipDup = false)).
Proof.
  split.
  - intros r name skipDup skipInvalid skipDup' skipInvalid' result Hmax H Hsd Hsi.
    pose proof (Import_run _ name skipDup skipInvalid Hmax) as Hrun.
    rewrite H in Hrun.
    inversion Hrun as [| | | |h i rs seen' counter' Hi Hacc Hne]; subst.
    rewrite (Import_accepted _ skipDup' skipInvalid' _ _ _ _ _ Hi
               (accepted_more_flags _ _ _ _ _ _ _ _ _ _ _ Hacc Hsd Hsi) Hmax).
    by rewrite decide_False.
  - intros r name skipDup skipInvalid e Hmax H.
    pose proof (Import_run _ name skipDup skipInvalid Hmax) as Hrun.
    rewrite H in Hrun.
    inversion Hrun as [|h rs Hnotin|h i pre row post seen1 counter1 e' Hi Hacc Hrej
                      |h i rs seen' Hi Hacc|]; subst; simpl; [done..| |done].
    destruct Hrej; simpl; split; congruence.
Qed.

Lemma X3_witness :
  Import [header; rowOf "a@x.io"; rowOf "b@y.io"] "email" (options true true)
  = Return (Some [mkEmailsByDomainQty "x.io" 1; mkEmailsByDomainQty "y.io" 1]) None /\
  ((Err (ParseError 3 2 ErrEmailDuplicate) = ErrEmailIsNotValid -> true = false) /\
   (Err (ParseError 3 2 ErrEmailDuplicate) = ErrEmailDuplicate -> false = false)).
Proof.
  split.
  - apply (proj1 X3_flags_only_matter_to_failing_runs _ "email"%string false false).
    + by vm_compute.
    + vm_compute. reflexivity.
    + done.
    + done.
  - apply (proj2 X3_flags_only_matter_to_failing_runs
             [header; rowOf "bad"; rowOf "bad"] "email"%string false true).
    + by vm_compute.
    + vm_compute. reflexivity.
Defined.

(** ** The first error ends the run *)

(** X4. A run that fails on the line of a data row has read nothing after
    that row: with any other rows after it, the run fails with the same
    error. *)
Theorem X4_nothing_is_read_after_the_first_error
    name skipDup skipInvalid headerRecord pre row post post' col err :
  withinInt (headerRecord :: pre ++ row :: post) ->
  Import (headerRecord :: pre ++ row :: post) name (options skipDup skipInvalid)
  = Return None (Some (ParseError (GoInt.len pre + 2) col err)) ->
  Import (headerRecord :: pre ++ row :: post') name (options skipDup skipInvalid)
  = Return None (Some (ParseError (GoInt.len pre + 2) col err)).
Proof.
  intros Hmax H.
  pose proof (Import_run _ name skipDup skipInvalid Hmax) as Hrun.
  rewrite H in Hrun. pose proof (len_nonneg pre) as Hpre.
  assert (withinInt (headerRecord :: pre)) as Hmax'.
  { unfold withinInt in *. rewrite !len_cons, len_app, len_cons in *.
    pose proof (len_nonneg post). lia. }
  inversion Hrun as [|h rs Hnotin Hr He
                    |h i pre1 row1 post1 seen1 counter1 e Hi Hacc Hrej [Hh Heq] He
                    |h i rs seen' Hi Hacc Hr He|]; subst.
  - lia.
  - assert (GoInt.len pre1 = GoInt.len pre) as Hlen by (inversion Hrej; lia).
    apply app_inj_1 in Heq as [-> [= -> ->]];
      [|unfold GoInt.len in Hlen; lia].
    by eapply Import_rejected.
  - rewrite len_app, len_cons in *. pose proof (len_nonneg post). lia.
Qed.

Lemma X4_witness :
  Import (header :: [rowOf "a@x.io"] ++ rowOf "bad" :: [rowOf "b@y.io"; rowOf "bad"])
         "email" (options false false)
  = Return None (Some (ParseError (GoInt.len [rowOf "a@x.io"] + 2) 2
                                  ErrEmailIsNotValid)).
Proof.
  apply (X4_nothing_is_read_after_the_first_error "email" false false header
           [rowOf "a@x.io"] (rowOf "bad") []).
  - by vm_compute.
  - vm_compute. reflexivity.
Defined.

(** ** What [Import] returns *)

(** X5. [Import] returns a list and no error, or an error and no list, never
    both and never neither; a list it returns is not empty; and it does not
    panic: the resolved index is inside every record that the reader lets
    through, and a valid email has a part after its [@]. *)
Theorem X5_a_list_or_an_error_and_no_panic r name skipDup skipInvalid :
  withinInt r ->
  (exists result,
      Import r name (options skipDup skipInvalid) = Return (Some result) None /\
      result ≠ []) \/
  (exists e, Import r name (options skipDup skipInvalid) = Return None (Some e)).
Proof.
  intros Hmax.
  pose proof (Import_run _ name skipDup skipInvalid Hmax) as Hrun.
  inversion Hrun as [|h rs Hnotin|h i pre row post seen1 counter1 e Hi Hacc Hrej
                    |h i rs seen' Hi Hacc|h i rs seen' counter' Hi Hacc Hne];
    [right; by eexists..|left].
  eexists. split; [done|]. by rewrite Sort_nil, toList_nil.
Qed.

Lemma X5_witness :
  (exists result,
      Import [header; rowOf "bad"] "email" (options false true)
      = Return (Some result) None /\ result ≠ []) \/
  (exists e, Import [header; rowOf "bad"] "email" (options false true)
             = Return None (Some e)).
Proof.
  apply X5_a_list_or_an_error_and_no_panic. by vm_compute.
Defined.

(** ** Options *)

Lemma options_distinct :
  SkipErrDuplicateEmails ≠ SkipErrInvalidEmails /\
  SkipErrDuplicateEmails ≠ emptyOption /\
  SkipErrInvalidEmails ≠ emptyOption.
Proof.
  split; [|split]; intros H.
  - by apply (f_equal (fun o => skipErrDupEmails (o (initial "" false false)))) in H.
  - by apply (f_equal (fun o => skipErrDupEmails (o (initial "" false false)))) in H.
  - by apply (f_equal (fun o => skipErrInvalidEmails (o (initial "" false false)))) in H.
Qed.

Lemma fold_packageOptions name (opts : list Option) : forall a b,
  Forall packageOption opts ->
  exists skipDup skipInvalid,
    fold_left (fun c option => option c) opts (initial name a b)
    = initial name skipDup skipInvalid /\
    (skipDup = true <-> a = true \/ SkipErrDuplicateEmails ∈ opts) /\
    (skipInvalid = true <-> b = true \/ SkipErrInvalidEmails ∈ opts).
Proof.
  destruct options_distinct as (Hdi & Hde & Hie).
  induction opts as [|o opts IH]; intros a b Hall; simpl.
  - exists a, b. split; [done|].
    split; (split; [by left|intros [?|?%elem_of_nil]; done]).
  - apply Forall_cons in Hall as [Ho Hopts].
    destruct Ho as [-> | [-> | ->]].
    + destruct (IH true b Hopts) as (sd & si & Hfold & Hsd & Hsi).
      exists sd, si. split; [exact Hfold|]. rewrite Hsd, Hsi, !elem_of_cons.
      split; [split; [intros _; right; by left|by left]|].
      split; [intros [?|?]; [by left|right; by right]|].
      intros [?|[?|?]]; [by left|congruence|by right].
    + destruct (IH a true Hopts) as (sd & si & Hfold & Hsd & Hsi).
      exists sd, si. split; [exact Hfold|]. rewrite Hsd, Hsi, !elem_of_cons.
      split; [|split; [intros _; right; by left|by left]].
      split; [intros [?|?]; [by left|right; by right]|].
      intros [?|[?|?]]; [by left|congruence|by right].
    + destruct (IH a b Hopts) as (sd & si & Hfold & Hsd & Hsi).
      exists sd, si. split; [exact Hfold|]. rewrite Hsd, Hsi, !elem_of_cons.
      split; (split; [intros [?|?]; [by left|right; by right]|]);
        (intros [?|[?|?]]; [by left|congruence|by right]).
Qed.

(** X6. A run with a list of the package's options is the run with the two
    flags that occur in the list: how often an option occurs and in which
    order does not matter, and options set nothing but the flags. *)
Theorem X6_options_set_the_flags_they_name name (opts : list Option) :
  Forall packageOption opts ->
  exists skipDup skipInvalid,
    (skipDup = true <-> SkipErrDuplicateEmails ∈ opts) /\
    (skipInvalid = true <-> SkipErrInvalidEmails ∈ opts) /\
    forall r, Import r name opts = Import r name (options skipDup skipInvalid).
Proof.
  intros Hall.
  destruct (fold_packageOptions name opts false false Hall)
    as (sd & si & Hfold & Hsd & Hsi).
  exists sd, si. split; [|split].
  - rewrite Hsd. split; [by intros [?|?]|by right].
  - rewrite Hsi. split; [by intros [?|?]|by right].
  - intros r. rewrite !Import_finish, newImporter_options.
    unfold newImporter. fold (initial name false false). by rewrite Hfold.
Qed.

Lemma X6_witness :
  exists skipDup skipInvalid,
    (skipDup = true <->
     SkipErrDuplicateEmails
       ∈ [SkipErrInvalidEmails; emptyOption; SkipErrInvalidEmails]) /\
    (skipInvalid = true <->
     SkipErrInvalidEmails
       ∈ [SkipErrInvalidEmails; emptyOption; SkipErrInvalidEmails]) /\
    forall r,
      Import r "email" [SkipErrInvalidEmails; emptyOption; SkipErrInvalidEmails]
      = Import r "email" (options skipDup skipInvalid).
Proof.
  apply X6_options_set_the_flags_they_name.
  repeat apply Forall_cons_2; [..|apply Forall_nil_2]; unfold packageOption; auto.
Defined.

(** ** The marked emails *)

Lemma accepted_marks_exact skipDup skipInvalid n idx seen counter rows seen' counter' :
  accepted skipDup skipInvalid n idx seen counter rows seen' counter' ->
  forall email,
    is_Some (seen' !! email) <->
    is_Some (seen !! email) \/ email ∈ emailColumn idx rows.
Proof.
  induction 1 as [seen counter
                 |seen counter record email rows seen' counter' Hlen Hidx Hseen Hsd _ IH
                 |seen counter record email rows seen' counter' Hlen Hidx Hnew Hv Hsi _ IH
                 |seen counter record email rows seen' counter' Hlen Hidx Hnew Hv _ IH];
    intros e; rewrite ?(emailColumn_cons _ _ _ _ Hidx), ?elem_of_cons.
  - split; [by left|]. by intros [?|?%elem_of_nil].
  - rewrite IH. split.
    + intros [?|?]; [by left|right; by right].
    + intros [?|[->|?]]; [by left|by left|by right].
  - rewrite IH, lookup_insert. case_decide as Heq; [subst|].
    + split; [intros _; right; by left|intros _; left; by eexists].
    + split.
      * intros [?|?]; [by left|right; by right].
      * intros [?|[->|?]]; [by left|done|by right].
  - rewrite IH, lookup_insert. case_decide as Heq; [subst|].
    + split; [intros _; right; by left|intros _; left; by eexists].
    + split.
      * intros [?|?]; [by left|right; by right].
      * intros [?|[->|?]]; [by left|done|by right].
Qed.

(** X7. After [parse] has gone through a stream without error, the marked
    emails are exactly the emails of the data rows, the invalid ones that
    were skipped as much as the ones that were counted. *)
Theorem X7_marked_emails_are_the_emails_read
    name skipDup skipInvalid headerRecord rows c' :
  withinInt (headerRecord :: rows) ->
  parse (newImporter name (options skipDup skipInvalid)) (headerRecord :: rows)
  = Return c' None ->
  forall email,
    is_Some (countedEmails c' !! email) <->
    email ∈ emailColumn (emailColumnIndex c') rows.
Proof.
  intros Hmax (idx & Hidx & <- & Hacc)%parse_accepted email; [|done].
  rewrite (accepted_marks_exact _ _ _ _ _ _ _ _ _ Hacc).
  split; [intros [[? H]|?]; [by rewrite lookup_empty in H|done]|by right].
Qed.

Lemma X7_witness :
  is_Some (({[ "a@x.io"%string := true ]} : gmap string bool) !! "a@x.io"%string) <->
  "a@x.io"%string ∈ emailColumn 0 [["a@x.io"%string]].
Proof.
  refine (X7_marked_emails_are_the_emails_read "email" false false ["email"%string]
            [["a@x.io"%string]]
            (mkCustomerImporter "email" 0 {[ "x.io"%string := 1 ]}
               {[ "a@x.io"%string := true ]} 3 (csv.mkReader 1 2) false false)
            _ _ "a@x.io"%string).
  - by vm_compute.
  - vm_compute. reflexivity.
Defined.

(** ** [Len], [Swap] and [Less] *)

Lemma ltb_trans (s t u : string) :
  String.ltb s t = true -> String.ltb t u = true -> String.ltb s u = true.
Proof.
  intros Hst Htu. apply le_ne_ltb.
  - etrans; by apply ltb_le.
  - intros ->. assert (t = u) as ->
      by (apply (anti_symm String.le); by apply ltb_le).
    by rewrite ltb_irrefl in Hst.
Qed.

(** X8. [Less] is the strict order [sort.Sort] needs: no element is before
    itself; of two elements at most one is before the other; the order is
    transitive; two elements neither of which is before the other have the
    same domain; and the counts play no part in it. *)
Theorem X8_Less_is_a_strict_order_on_domains :
  (forall x, Less x x = false) /\
  (forall x y, Less x y = true -> Less y x = false) /\
  (forall x y z, Less x y = true -> Less y z = true -> Less x z = true) /\
  (forall x y, Less x y = false -> Less y x = false -> Domain x = Domain y) /\
  (forall x y x' y',
      Domain x = Domain x' -> Domain y = Domain y' -> Less x y = Less x' y').
Proof.
  unfold Less. split; [|split; [|split; [|split]]].
  - intros x. apply ltb_irrefl.
  - intros x y Hxy. destruct (String.ltb (Domain y) (Domain x)) eqn:Hyx; [|done].
    pose proof (ltb_trans _ _ _ Hxy Hyx) as H. by rewrite ltb_irrefl in H.
  - intros x y z. apply ltb_trans.
  - intros x y Hxy Hyx. apply (anti_symm String.le); by apply ltb_false_le.
  - by intros x y x' y' -> ->.
Qed.

Lemma X8_witness :
  Less (mkEmailsByDomainQty "a.io" 5) (mkEmailsByDomainQty "b.io" 1) = true /\
  Less (mkEmailsByDomainQty "b.io" 1) (mkEmailsByDomainQty "a.io" 5) = false.
Proof.
  split.
  - apply (proj1 (proj2 (proj2 X8_Less_is_a_strict_order_on_domains))
             _ (mkEmailsByDomainQty "a.org" 2)); reflexivity.
  - apply (proj1 (proj2 X8_Less_is_a_strict_order_on_domains)). reflexivity.
Defined.

Lemma Swap_Some p i j p' :
  Swap p i j = Some p' ->
  exists pi pj,
    p !! Z.to_nat i = Some pi /\ p !! Z.to_nat j = Some pj /\
    0 <= i /\ 0 <= j /\
    p' = <[Z.to_nat j := pi]> (<[Z.to_nat i := pj]> p).
Proof.
  unfold Swap, GoInt.index.
  destruct (Z.ltb_spec i 0); [done|]. destruct (Z.ltb_spec j 0).
  { by case_match. }
  destruct (_ !! Z.to_nat i) as [pi|] eqn:Hi; [|done].
  destruct (_ !! Z.to_nat j) as [pj|] eqn:Hj; [|done].
  intros [= <-]. by exists pi, pj.
Qed.

Lemma swap_lookup (p : list EmailsByDomainQty) (i j k : nat) pi pj :
  p !! i = Some pi -> p !! j = Some pj ->
  <[j := pi]> (<[i := pj]> p) !! k
  = p !! (if decide (k = j) then i else if decide (k = i) then j else k).
Proof.
  intros Hi Hj.
  pose proof (lookup_lt_Some _ _ _ Hi) as Hli.
  pose proof (lookup_lt_Some _ _ _ Hj) as Hlj.
  destruct (decide (k = j)) as [->|Hkj].
  - by rewrite list_lookup_insert_eq by (by rewrite length_insert).
  - rewrite list_lookup_insert_ne by done.
    destruct (decide (k = i)) as [->|Hki].
    + by rewrite list_lookup_insert_eq.
    + by rewrite list_lookup_insert_ne.
Qed.

Lemma Swap_Permutation p i j p' : Swap p i j = Some p' -> p' ≡ₚ p.
Proof.
  intros (pi & pj & Hi & Hj & _ & _ & ->)%Swap_Some.
  unfold EmailsByDomainQtyList in *. apply Permutation_inj. split; [by rewrite !length_insert|].
  exists (fun k => if decide (k = Z.to_nat j) then Z.to_nat i
                   else if decide (k = Z.to_nat i) then Z.to_nat j else k).
  split.
  - intros k1 k2. repeat case_decide; congruence.
  - intros k. by apply swap_lookup.
Qed.

(** X9. [Swap] on two positions inside the slice exchanges the two elements
    and leaves every other position, the length and the elements as a
    whole as they are; swapping the same positions again restores the slice;
    and [Swap] panics exactly when a position is outside the slice. *)
Theorem X9_Swap_exchanges_two_elements :
  (forall p i j p',
      Swap p i j = Some p' ->
      GoInt.index p' i = GoInt.index p j /\
      GoInt.index p' j = GoInt.index p i /\
      (forall k, k ≠ i -> k ≠ j -> GoInt.index p' k = GoInt.index p k) /\
      Len p' = Len p /\
      p' ≡ₚ p /\
      Swap p' i j = Some p) /\
  (forall p i j,
      Swap p i j = None <-> ~ (0 <= i < Len p /\ 0 <= j < Len p)).
Proof.
  split.
  - intros p i j p' Hswap.
    pose proof (Swap_Permutation _ _ _ _ Hswap) as Hperm.
    apply Swap_Some in Hswap as (pi & pj & Hi & Hj & Hi0 & Hj0 & ->).
    unfold EmailsByDomainQtyList in *.
    assert (forall k, 0 <= k ->
               GoInt.index (<[Z.to_nat j := pi]> (<[Z.to_nat i := pj]> p)) k
               = p !! (if decide (Z.to_nat k = Z.to_nat j) then Z.to_nat i
                       else if decide (Z.to_nat k = Z.to_nat i) then Z.to_nat j
                            else Z.to_nat k)) as Hk.
    { intros k Hk0. unfold GoInt.index. destruct (Z.ltb_spec k 0); [lia|].
      by apply swap_lookup. }
    assert (forall (l : list EmailsByDomainQty) k,
               0 <= k -> GoInt.index l k = l !! Z.to_nat k) as Hp.
    { intros l k Hk0. unfold GoInt.index. by destruct (Z.ltb_spec k 0); [lia|]. }
    split; [|split; [|split; [|split; [|split]]]].
    + rewrite Hk, Hp by done. repeat case_decide; congruence.
    + rewrite Hk, Hp by done. by rewrite decide_True.
    + intros k Hki Hkj. destruct (Z.ltb_spec k 0) as [Hneg|Hk0].
      { unfold GoInt.index. by destruct (Z.ltb_spec k 0); [|lia]. }
      rewrite Hk, Hp by done. rewrite !decide_False by lia. done.
    + unfold Len, GoInt.len. by rewrite !length_insert.
    + done.
    + assert (GoInt.index (<[Z.to_nat j := pi]> (<[Z.to_nat i := pj]> p)) j
              = Some pi) as Hqj.
      { rewrite Hk by done. by rewrite decide_True. }
      assert (exists x,
                 GoInt.index (<[Z.to_nat j := pi]> (<[Z.to_nat i := pj]> p)) i
                 = Some x) as [x Hqi].
      { rewrite Hk by done. repeat case_decide; by eexists. }
      unfold Swap. rewrite Hqi, Hqj. f_equal.
      unfold EmailsByDomainQtyList. rewrite Hp in Hqi, Hqj by done.
      apply list_eq. intros k.
      rewrite (swap_lookup _ (Z.to_nat i) (Z.to_nat j) k x pi Hqi Hqj).
      rewrite (swap_lookup p (Z.to_nat i) (Z.to_nat j) _ pi pj) by done.
      f_equal. repeat case_decide; congruence.
  - intros p i j. unfold Swap, Len. split.
    + intros Hnone [Hi Hj].
      destruct (index_is_Some p i Hi) as [pi Hpi].
      destruct (index_is_Some p j Hj) as [pj Hpj].
      by rewrite Hpi, Hpj in Hnone.
    + intros Hout.
      destruct (GoInt.index p i) as [pi|] eqn:Hi; [|done].
      destruct (GoInt.index p j) as [pj|] eqn:Hj; [|done].
      destruct Hout. split; by eapply index_Some.
Qed.

Lemma X9_witness :
  GoInt.index [mkEmailsByDomainQty "b.io" 1; mkEmailsByDomainQty "a.io" 2] 0
  = GoInt.index [mkEmailsByDomainQty "a.io" 2; mkEmailsByDomainQty "b.io" 1] 1.
Proof.
  apply (proj1 X9_Swap_exchanges_two_elements
           [mkEmailsByDomainQty "a.io" 2; mkEmailsByDomainQty "b.io" 1] 0 1).
  reflexivity.
Defined.

(** ** [sort.Sort], whatever its algorithm *)

Lemma swapped_Permutation p q : swapped p q -> q ≡ₚ p.
Proof.
  induction 1 as [p|p i j p' q Hswap _ IH]; [done|].
  rewrite IH. by eapply Swap_Permutation.
Qed.

Lemma sortedByLess_sorted (p : list EmailsByDomainQty) :
  sortedByLess p -> StronglySorted notAfter p.
Proof.
  unfold sortedByLess. induction p as [|x p IH]; intros Hs; constructor.
  - apply IH. intros i j y z Hij Hi Hj. by apply (Hs (S i) (S j) y z); [lia|..].
  - apply Forall_forall. intros y [j Hj]%list_elem_of_lookup_1.
    apply ltb_false_le. by apply (Hs 0%nat (S j) x y); [lia|..].
Qed.

Lemma sorted_sortedByLess (p : list EmailsByDomainQty) :
  StronglySorted notAfter p -> sortedByLess p.
Proof.
  unfold sortedByLess.
  induction 1 as [|x p Hp IH Hx]; intros i j y z Hij Hi Hj; [done|].
  destruct j as [|j]; [lia|]. simpl in Hj. destruct i as [|i]; simpl in Hi.
  - assert (y = x) as -> by congruence. rewrite Forall_forall in Hx.
    assert (notAfter x z) as Hxz by (by eapply Hx, list_elem_of_lookup_2).
    unfold Less. destruct (String.ltb (Domain z) (Domain x)) eqn:Hlt; [|done].
    assert (Domain x = Domain z) as Heq
      by (apply (anti_symm String.le); [done|by apply ltb_le]).
    by rewrite Heq, ltb_irrefl in Hlt.
  - apply (IH i j); [lia|done..].
Qed.

(** X10. On a slice in which no domain occurs twice, as [getResult] builds
    from the keys of a map: every arrangement that calls of [Swap] can reach
    and in which no element is [Less] than one before it is the same list,
    the one [sort.Sort] is modelled to return, which is itself such an
    arrangement of the slice's elements.  The sorted result does not depend
    on the algorithm [sort.Sort] runs through the interface. *)
Theorem X10_the_sorted_arrangement_is_unique :
  (forall p q,
      NoDup (Domain <$> p) -> swapped p q -> sortedByLess q -> q = sort.Sort p) /\
  (forall p, sortedByLess (sort.Sort p) /\ sort.Sort p ≡ₚ p).
Proof.
  split.
  - intros p q Hnodup Hreach%swapped_Permutation Hsorted%sortedByLess_sorted.
    apply (StronglySorted_unique_strong notAfter);
      [|done|apply Sort_sorted|by rewrite Sort_Permutation].
    intros x y Hx Hy Hxy Hyx. rewrite Hreach in Hx. rewrite Sort_Permutation in Hy.
    apply (same_domain_eq p); [done..|]. by apply (anti_symm String.le).
  - intros p. split; [apply sorted_sortedByLess, Sort_sorted|apply Sort_Permutation].
Qed.

Lemma X10_witness :
  [mkEmailsByDomainQty "a.io" 2; mkEmailsByDomainQty "b.io" 1]
  = sort.Sort [mkEmailsByDomainQty "b.io" 1; mkEmailsByDomainQty "a.io" 2].
Proof.
  apply (proj1 X10_the_sorted_arrangement_is_unique).
  - vm_compute. apply NoDup_cons. split.
    + intros Hin%list_elem_of_singleton. discriminate.
    + apply NoDup_singleton.
  - eapply (swapped_step _ 0 1); [reflexivity|apply swapped_refl].
  - intros [|[|[|i]]] [|[|[|j]]] x y Hij Hi Hj; try lia; try discriminate.
    injection Hi as <-. injection Hj as <-. reflexivity.
Defined.

(** ** [getResult] loses nothing *)

Lemma toPairs_toList m : toPairs (toList m) = map_to_list m.
Proof.
  unfold toPairs, toList. rewrite <- list_fmap_compose.
  rewrite <- (list_fmap_id (map_to_list m)) at 2.
  apply list_fmap_ext. by intros _ [d v] _.
Qed.

(** X11. A list [getResult] returns holds the domain counter and nothing
    else: no domain occurs twice in it, it has as many entries as the
    counter has domains, and its pairs read back as a map are the
    counter. *)
Theorem X11_result_is_the_counter c result :
  getResult c = Return (Some result) None ->
  NoDup (Domain <$> result) /\
  length result = size (domainCounter c) /\
  list_to_map (toPairs result) = domainCounter c.
Proof.
  rewrite getResult_spec. case_decide; [done|]. intros [= <-].
  pose proof (Sort_Permutation (toList (domainCounter c))) as Hperm.
  split; [|split].
  - rewrite Hperm. apply toList_NoDup.
  - rewrite Hperm. unfold toList. by rewrite length_fmap, length_map_to_list.
  - rewrite <- (list_to_map_to_list (domainCounter c)) at 2.
    rewrite <- toPairs_toList. apply list_to_map_proper.
    + unfold toPairs. rewrite <- list_fmap_compose.
      change (fst ∘ _) with Domain. rewrite Hperm. apply toList_NoDup.
    + unfold toPairs. by rewrite Hperm.
Qed.

Lemma X11_witness :
  NoDup (Domain <$> [mkEmailsByDomainQty "a.io" 2; mkEmailsByDomainQty "b.io" 1]) /\
  length [mkEmailsByDomainQty "a.io" 2; mkEmailsByDomainQty "b.io" 1]
  = size (<[ "b.io"%string := 1 ]> ({[ "a.io"%string := 2 ]} : gmap string Z)) /\
  list_to_map (toPairs [mkEmailsByDomainQty "a.io" 2; mkEmailsByDomainQty "b.io" 1])
  = <[ "b.io"%string := 1 ]> ({[ "a.io"%string := 2 ]} : gmap string Z).
Proof.
  refine (X11_result_is_the_counter
            (mkCustomerImporter "email" 0
               (<[ "b.io"%string := 1 ]> {[ "a.io"%string := 2 ]}) ∅ 3
               (csv.mkReader 1 2) false false) _ _).
  vm_compute. reflexivity.
Defined.

(** ** [ImportFromFile] *)

Lemma release_head fileName names : os.release fileName (fileName :: names) = names.
Proof. simpl. by rewrite String.eqb_refl. Qed.

(** X12. [ImportFromFile] returns the error of [os.Open] for a name without
    a file or with a file that may not be read, whatever the field name and
    the options; for a readable file it returns what [Import] returns on the
    file's records; and however it returns, the files and the files held
    open are as before the call. *)
Theorem X12_ImportFromFile_opens_imports_and_closes fs fileName name opts :
  os.files (ImportFromFile fs fileName name opts).1 = os.files fs /\
  os.held (ImportFromFile fs fileName name opts).1 = os.held fs /\
  (ImportFromFile fs fileName name opts).2 =
  match os.files fs !! fileName with
  | None => OpenFailed os.ErrNotExist
  | Some os.Denied => OpenFailed os.ErrPermission
  | Some (os.Readable records) => Imported (Import records name opts)
  end.
Proof.
  unfold ImportFromFile, os.Open.
  destruct (os.files fs !! fileName) as [[|records]|]; [done| |done].
  assert (Import records name opts = Panic \/
          (exists e, Import records name opts = Return None (Some e)) \/
          (exists result, Import records name opts = Return result None)) as Hshape.
  { rewrite Import_finish. unfold finish.
    destruct (parse _ records) as [c [e|]|]; [right; left; by eexists| |by left].
    rewrite getResult_spec. case_decide; [right; left|right; right]; by eexists. }
  unfold os.Close. cbn [os.held os.files]. rewrite release_head.
  destruct Hshape as [->|[[e ->]|[result ->]]]; done.
Qed.

(** ** The order of the rows, whatever the flags *)

Lemma countedOf_Permutation seen emails emails' :
  emails' ≡ₚ emails -> countedOf seen emails' ≡ₚ countedOf seen emails.
Proof.
  intros Hperm. apply NoDup_Permutation; [apply countedOf_NoDup..|].
  intros e. rewrite !countedOf_elem_of. by rewrite Hperm.
Qed.

(** X13. The order of the data rows does not matter to a run that
    succeeds, whatever the flags: the same rows in any other order give the
    same list. *)
Theorem X13_row_order_never_matters_to_a_successful_run
    name skipDup skipInvalid headerRecord rows rows' result :
  withinInt (headerRecord :: rows) ->
  rows' ≡ₚ rows ->
  Import (headerRecord :: rows) name (options skipDup skipInvalid)
  = Return (Some result) None ->
  Import (headerRecord :: rows') name (options skipDup skipInvalid)
  = Return (Some result) None.
Proof.
  intros Hmax Hperm H.
  pose proof (Import_run _ name skipDup skipInvalid Hmax) as Hrun.
  rewrite H in Hrun.
  inversion Hrun as [| | | |h idx rs seen' counter' Hidx Hacc Hne]; subst.
  pose proof (resolved_range _ _ _ Hidx) as Hrange.
  assert (emailColumn idx rows' ≡ₚ emailColumn idx rows) as Hcol
    by (unfold emailColumn; by rewrite Hperm).
  assert (GoInt.len rows' = GoInt.len rows) as Hlen
    by (unfold GoInt.len; by rewrite Hperm).
  assert (withinInt (headerRecord :: rows')) as Hmax'.
  { unfold withinInt in *. rewrite len_cons in *. lia. }
  destruct (accepted_build skipDup skipInvalid _ idx rows' ∅ ∅ Hrange)
    as (seen2 & counter2 & Hacc2).
  { rewrite Hperm. by eapply accepted_width. }
  { destruct skipInvalid; [by left|right]. rewrite Hcol.
    eapply accepted_strict_valid; [done|].
    intros e [? He]. by rewrite lookup_empty in He. }
  { destruct skipDup; [by left|right]. split; [|intros; apply lookup_empty].
    rewrite Hcol. by eapply accepted_strict_NoDup. }
  assert (counter2 = counter') as ->.
  { unfold withinInt in Hmax. rewrite len_cons in Hmax.
    apply map_eq. intros d.
    rewrite (run_counter _ _ _ _ _ _ _ d Hacc2), (run_counter _ _ _ _ _ _ _ d Hacc)
      by lia.
    by rewrite (countedOfDomain_Permutation d ∅ ∅ (emailColumn idx rows')
                  (emailColumn idx rows))
      by (by apply countedOf_Permutation). }
  rewrite (Import_accepted _ _ _ _ _ _ _ _ Hidx Hacc2 Hmax').
  by rewrite decide_False.
Qed.

Lemma X13_witness :
  Import (header :: [rowOf "bad"; rowOf "a@y.io"; rowOf "b@x.io"; rowOf "a@y.io"])
         "email" (options true true)
  = Return (Some [mkEmailsByDomainQty "x.io" 1; mkEmailsByDomainQty "y.io" 1]) None.
Proof.
  apply (X13_row_order_never_matters_to_a_successful_run "email" true true header
           ([rowOf "a@y.io"; rowOf "b@x.io"; rowOf "a@y.io"] ++ [rowOf "bad"])).
  - by vm_compute.
  - apply (Permutation_app_comm [rowOf "bad"]).
  - vm_compute. reflexivity.
Defined.

(** ** The total of the counts *)

Lemma sum_fmap_add (g h : string -> Z) (keys : list string) :
  foldr Z.add 0 ((fun k => g k + h k) <$> keys)
  = foldr Z.add 0 (g <$> keys) + foldr Z.add 0 (h <$> keys).
Proof.
  induction keys as [|k keys IH]; [done|].
  rewrite !fmap_cons. cbn [foldr]. rewrite IH. lia.
Qed.

Lemma sum_indicator (k0 : string) (keys : list string) :
  NoDup keys ->
  foldr Z.add 0 ((fun k => if decide (k0 = k) then 1 else 0) <$> keys)
  = if decide (k0 ∈ keys) then 1 else 0.
Proof.
  induction 1 as [|k keys Hk Hnodup IH]; [done|].
  rewrite fmap_cons. cbn [foldr]. rewrite IH.
  destruct (decide (k0 = k)) as [->|Hne].
  - rewrite (decide_False (P := k ∈ keys)) by done.
    rewrite decide_True by (by left). done.
  - destruct (decide (k0 ∈ keys)) as [Hin|Hnotin].
    + rewrite decide_True by (by right). done.
    + rewrite decide_False; [done|]. by intros [?|?]%elem_of_cons.
Qed.

(** Counting the elements of a list key by key counts every element once. *)
Lemma count_by_key {A} (f : A -> string) (keys : list string) (l : list A) :
  NoDup keys ->
  (forall x, x ∈ l -> f x ∈ keys) ->
  foldr Z.add 0
        ((fun k => Z.of_nat (length (filter (fun x => f x = k) l))) <$> keys)
  = Z.of_nat (length l).
Proof.
  intros Hnodup. induction l as [|x l IH]; intros Hkeys.
  - clear. induction keys as [|k keys IH]; [done|].
    rewrite fmap_cons. cbn [foldr]. by rewrite IH.
  - rewrite (list_fmap_ext _
               (fun k => (if decide (f x = k) then 1 else 0)
                         + Z.of_nat (length (filter (fun y => f y = k) l)))).
    2:{ intros _ k _. rewrite filter_cons.
        destruct (decide (f x = k)); [rewrite length_cons|]; lia. }
    rewrite sum_fmap_add, sum_indicator by done.
    rewrite decide_True by (apply Hkeys; by left).
    rewrite IH by (intros y Hy; apply Hkeys; by right).
    rewrite length_cons. lia.
Qed.

Lemma totalCount_sum (p : list EmailsByDomainQty) :
  totalCount p = foldr Z.add 0 (EmailsCount <$> p).
Proof.
  induction p as [|x p IH]; [done|].
  rewrite fmap_cons. cbn [foldr totalCount]. by rewrite <- IH.
Qed.

(** X14. The counts of the list of a successful run add up to the number of
    valid emails of the column, each taken once; the total is never more
    than the number of data rows. *)
Theorem X14_counts_add_up_to_the_emails_counted
    name skipDup skipInvalid headerRecord idx rows result :
  rangeHeader name headerRecord 0 = Some idx ->
  withinInt (headerRecord :: rows) ->
  Import (headerRecord :: rows) name (options skipDup skipInvalid)
  = Return (Some result) None ->
  totalCount result = Z.of_nat (length (countedOf ∅ (emailColumn idx rows))) /\
  totalCount result <= GoInt.len rows.
Proof.
  intros Hidx Hmax H.
  pose proof (Import_run _ name skipDup skipInvalid Hmax) as Hrun.
  rewrite H in Hrun.
  inversion Hrun as [| | | |h i rs seen' counter' Hi Hacc Hne]; subst.
  assert (i = idx) as -> by congruence.
  pose proof (resolved_range _ _ _ Hidx) as Hrange.
  assert (GoInt.len rows <= GoInt.max_int) as Hlen.
  { unfold withinInt in Hmax. rewrite len_cons in Hmax. lia. }
  assert (totalCount (sort.Sort (toList counter'))
          = Z.of_nat (length (countedOf ∅ (emailColumn idx rows)))) as Htotal.
  { rewrite totalCount_sum.
    rewrite <- (count_by_key domainOf (Domain <$> sort.Sort (toList counter'))).
    - rewrite <- list_fmap_compose. f_equal. apply list_fmap_ext.
      intros _ x Hx%list_elem_of_lookup_2%result_elem_of. simpl.
      rewrite (run_counter _ _ _ _ _ _ _ (Domain x) Hacc Hlen) in Hx.
      unfold countedOfDomain in *. case_decide; congruence.
    - rewrite Sort_Permutation. apply toList_NoDup.
    - intros e (Hin & Hnew & Hv)%countedOf_elem_of.
      pose proof (run_counter _ _ _ _ _ _ _ (domainOf e) Hacc Hlen) as Hd.
      rewrite decide_False in Hd by (by eapply countedOfDomain_pos).
      apply (list_elem_of_fmap_2' Domain _
               (mkEmailsByDomainQty (domainOf e)
                  (Z.of_nat (countedOfDomain (domainOf e) ∅ (emailColumn idx rows)))));
        [|done].
      apply result_elem_of. exact Hd. }
  split; [done|]. rewrite Htotal.
  assert (length (countedOf ∅ (emailColumn idx rows)) <= length rows)%nat; [|
    unfold GoInt.len; lia].
  rewrite <- (emailColumn_length idx _ rows Hrange
                (accepted_width _ _ _ _ _ _ _ _ _ Hacc)).
  apply submseteq_length, NoDup_submseteq; [apply countedOf_NoDup|].
  by intros e (Hin & _)%countedOf_elem_of.
Qed.

Lemma X14_witness :
  totalCount [mkEmailsByDomainQty "x.io" 2; mkEmailsByDomainQty "y.io" 1]
  = Z.of_nat (length (countedOf ∅
       (emailColumn 2 [rowOf "a@x.io"; rowOf "bad"; rowOf "c@y.io"; rowOf "a@x.io";
                       rowOf "b@x.io"]))) /\
  totalCount [mkEmailsByDomainQty "x.io" 2; mkEmailsByDomainQty "y.io" 1]
  <= GoInt.len [rowOf "a@x.io"; rowOf "bad"; rowOf "c@y.io"; rowOf "a@x.io";
                rowOf "b@x.io"].
Proof.
  apply (X14_counts_add_up_to_the_emails_counted "email" true true header).
  - reflexivity.
  - by vm_compute.
  - vm_compute. reflexivity.
Defined.
